(** * brilliant-moves-clf: the tree-feature pipeline of [shared/utility.py]

    A shallow embedding of the feature extraction code
    ([get_subtree_data], [get_data], [feature_transform], [index_flat],
    [parse_trees]) together with the properties the specification states
    about it.

    Numbers.  Node ids, visit counts and offsets are Python [int]s and are
    modelled as [Z].  Python [float]s are modelled by the rational they
    denote ([Q]); comparisons of floats, and of floats with ints, are exact
    in Python, and so is the sign of a float sum, so every branch the code
    takes is the branch the model takes (NaN and infinities are outside the
    model).  The division of the branching factor and the arithmetic of the
    normalization are the exact rational operations.  The two numpy
    reductions [np.mean] and [np.std] are kept abstract. *)

From Stdlib Require Import ZArith QArith Qminmax Lia.
From stdpp Require Import base option list gmap strings.

#[local] Open Scope Z_scope.

(** ** Feature Indexer: [index_flat] *)

Module Indexer.

(** Size of one (weight-set, tree-size) block: [22*18+2]. *)
Definition block : Z := 22 * 18 + 2.

(** [index_flat(weight, tree, index = 0, subtree = None, agg = 0)].
    The optional role [subtree] is an [option]; [None] is Python's [None]. *)
Definition index_flat (weight tree index : Z) (subtree : option Z) (agg : Z) : Z :=
  let base := weight * 5 * (22 * 18 + 2) + tree * (22 * 18 + 2) in
  match subtree with
  | None => base + index
  | Some subtree =>
      if subtree <? 2 then base + 2 + 22 * subtree + index
      else
        let subset := subtree - 2 in
        base + 2 + 22 * 2 + 22 * 4 * subset + agg * 22 + index
  end.

(** An argument combination of the indexer. *)
Record args := Args {
  a_weight : Z;
  a_tree : Z;
  a_index : Z;
  a_subtree : option Z;
  a_agg : Z
}.

Definition offset (a : args) : Z :=
  index_flat (a_weight a) (a_tree a) (a_index a) (a_subtree a) (a_agg a).

(** The valid combinations.  Where the aggregation index is not an argument
    of the addressed slot (presence flags, parent and move-of-interest
    subtrees) it stays at its default [0]. *)
Definition valid (a : args) : Prop :=
  0 <= a_weight a < 2 /\ 0 <= a_tree a < 5 /\
  match a_subtree a with
  | None => 0 <= a_index a < 2 /\ a_agg a = 0
  | Some s =>
      0 <= a_index a < 22 /\
      ((0 <= s < 2 /\ a_agg a = 0) \/ (2 <= s < 6 /\ 0 <= a_agg a < 4))
  end.

Definition validb (a : args) : bool :=
  (0 <=? a_weight a) && (a_weight a <? 2) && (0 <=? a_tree a) && (a_tree a <? 5) &&
  match a_subtree a with
  | None => (0 <=? a_index a) && (a_index a <? 2) && (a_agg a =? 0)
  | Some s =>
      (0 <=? a_index a) && (a_index a <? 22) &&
      (((0 <=? s) && (s <? 2) && (a_agg a =? 0)) ||
       ((2 <=? s) && (s <? 6) && (0 <=? a_agg a) && (a_agg a <? 4)))
  end.

(** The combination addressed by an offset: the inverse of [offset]. *)
Definition decode (n : Z) : args :=
  let w := n / (5 * block) in
  let r := n mod (5 * block) in
  let t := r / block in
  let k := r mod block in
  if k <? 2 then Args w t k None 0
  else if k <? 2 + 22 * 2 then Args w t ((k - 2) mod 22) (Some ((k - 2) / 22)) 0
  else
    let j := k - 2 - 22 * 2 in
    Args w t (j mod 22) (Some (2 + j / (22 * 4))) ((j mod (22 * 4)) / 22).

End Indexer.

(** ** Tree Store: the directed graph read from a [.gml] file *)

(** The attribute dictionary of a node.  An attribute that is absent (or
    does not convert with [int(..)] / [float(..)]) is [None]: reading it
    raises in Python. *)
Record node := Node {
  attr_N : option Z;
  attr_Q : option Q;
  attr_P : option Q;
  attr_move : option string
}.

(** A vertex of the graph: its attributes and its successors, in the
    iteration order of [G.successors]. *)
Record vertex := Vertex {
  v_attrs : node;
  v_succ : list Z
}.

(** [nx.DiGraph], keyed by node id ([read_gml(.., label=None)]). *)
Record DiGraph := Graph { g_map : gmap Z vertex }.

Definition nodes (G : DiGraph) (i : Z) : option node :=
  v_attrs <$> g_map G !! i.

(** [G.successors(i)]; raises when [i] is not a node. *)
Definition successors (G : DiGraph) (i : Z) : option (list Z) :=
  v_succ <$> g_map G !! i.

(** The adjacency list as graph algorithms read it. *)
Definition adj (G : DiGraph) (i : Z) : list Z :=
  default [] (successors G i).

Definition out_degree (G : DiGraph) (i : Z) : nat := length (adj G i).

Definition in_degree (G : DiGraph) (i : Z) : nat :=
  length (filter (λ kv, i ∈ v_succ kv.2) (map_to_list (g_map G))).

Definition number_of_edges (G : DiGraph) : nat :=
  length (map_to_list (g_map G) ≫= (λ kv, v_succ kv.2)).

(** *** Breadth-first distances: [nx.shortest_path_length(G, root)]

    networkx sweeps the graph level by level: the nodes of [thislevel] are
    taken in order, and every successor not yet seen is marked seen, queued
    for the next level and reported with the current level.  [discover] is
    that sweep over the concatenated adjacency lists. *)
Fixpoint discover (seen : list Z) (ws : list Z) : list Z :=
  match ws with
  | [] => []
  | w :: ws =>
      if decide (w ∈ seen) then discover seen ws
      else w :: discover (w :: seen) ws
  end.

(** [out] is the dictionary built so far, in insertion order; its keys are
    the set of seen nodes. *)
Fixpoint bfs (fuel : nat) (G : DiGraph) (level : nat)
    (out : list (Z * nat)) (thislevel : list Z) : list (Z * nat) :=
  match fuel with
  | O => out
  | S fuel =>
      match thislevel with
      | [] => out
      | _ =>
          let nextlevel := discover out.*1 (thislevel ≫= adj G) in
          bfs fuel G (S level) (out ++ ((λ w, (w, S level)) <$> nextlevel)) nextlevel
      end
  end.

(** Every sweep but the last finds a new edge target, so one more sweep
    than there are edges always reaches the end ([bfs_fuel_enough]). *)
Definition shortest_path_length (G : DiGraph) (root : Z) : list (Z * nat) :=
  bfs (S (number_of_edges G)) G 0 [(root, 0%nat)] [root].

(** [nx.descendants(G, root)]: the nodes reachable from [root], without
    [root] itself. *)
Definition descendants (G : DiGraph) (root : Z) : list Z :=
  filter (λ x, x ≠ root) (shortest_path_length G root).*1.

(** ** Subtree Extractor: [get_subtree_data] *)

Definition Qltb (x y : Q) : bool := (Qnum x * QDen y <? Qnum y * QDen x)%Z.

(** The 15-tuple returned by [get_subtree_data]. *)
Record subtree_data := SubtreeData {
  improving_moves : list Z;
  adv_moves : list Z;
  losing_moves : list Z;
  disadv_moves : list Z;
  move_node : option Z;
  max_Q : Q;
  max_P : Q;
  max_N : Z;
  root_Q : Q;
  root_P : Q;
  root_N : Q;
  bf : Q;
  width : list (nat * nat);
  height : Z;
  move_is_best : bool
}.

(** The variables the loop over the successors updates. *)
Record loop_state := LoopState {
  ls_improving : list Z;
  ls_adv : list Z;
  ls_losing : list Z;
  ls_disadv : list Z;
  ls_move_node : option Z;
  ls_max_Q : Q;
  ls_max_P : Q;
  ls_max_N : Z
}.

Definition loop_init : loop_state :=
  LoopState [] [] [] [] None (-1)%Q 0%Q 0.

(** One iteration of [for i in G.successors(root)]. *)
Definition loop_body (G : DiGraph) (uci : string) (root_Q : Q)
    (st : loop_state) (i : Z) : option loop_state :=
  nd ← nodes G i;
  N ← attr_N nd;
  Q ← attr_Q nd;
  P ← attr_P nd;
  move ← attr_move nd;
  let max_N := if ls_max_N st <? N then N else ls_max_N st in
  let max_Q := if Qltb (ls_max_Q st) Q then Q else ls_max_Q st in
  let max_P := if Qltb (ls_max_P st) P then P else ls_max_P st in
  if decide (move = uci) then
    Some (LoopState (ls_improving st) (ls_adv st) (ls_losing st) (ls_disadv st)
            (Some i) max_Q max_P max_N)
  else
    let imp := Qltb 0 (Q - (- root_Q)) in
    let adv := Qltb 0 Q in
    Some (LoopState
            (if imp then ls_improving st ++ [i] else ls_improving st)
            (if adv then ls_adv st ++ [i] else ls_adv st)
            (if imp then ls_losing st else ls_losing st ++ [i])
            (if adv then ls_disadv st else ls_disadv st ++ [i])
            (ls_move_node st) max_Q max_P max_N).

Fixpoint loop (G : DiGraph) (uci : string) (root_Q : Q)
    (st : loop_state) (succs : list Z) : option loop_state :=
  match succs with
  | [] => Some st
  | i :: succs => st' ← loop_body G uci root_Q st i; loop G uci root_Q st' succs
  end.

(** [width[v] = width.get(v,0) + 1] on an insertion-ordered dictionary. *)
Fixpoint width_incr (v : nat) (width : list (nat * nat)) : list (nat * nat) :=
  match width with
  | [] => [(v, 1%nat)]
  | (k, c) :: width =>
      if decide (k = v) then (k, S c) :: width else (k, c) :: width_incr v width
  end.

Definition width_profile (spl : list (Z * nat)) : list (nat * nat) :=
  foldl (λ width kv, width_incr kv.2 width) [] spl.

(** [width.get(d, 0)]. *)
Fixpoint width_get (width : list (nat * nat)) (d : nat) : nat :=
  match width with
  | [] => 0%nat
  | (k, c) :: width => if decide (k = d) then c else width_get width d
  end.

(** [max(k for k,v in width.items())], [-1] when that raises. *)
Definition height_of (width : list (nat * nat)) : Z :=
  match width with
  | [] => -1
  | _ => Z.of_nat (max_list width.*1)
  end.

(** [(len(descendants)-1)/len(leaves)], [-1] when that raises. *)
Definition branching_factor (G : DiGraph) (root : Z) : Q :=
  let descendants := descendants G root in
  let leaves :=
    filter (λ x, out_degree G x = 0%nat ∧ in_degree G x = 1%nat) descendants in
  match length leaves with
  | O => (-1)%Q
  | S _ =>
      (inject_Z (Z.of_nat (length descendants) - 1) /
       inject_Z (Z.of_nat (length leaves)))%Q
  end.

Definition get_subtree_data (G : DiGraph) (uci : string) (root : Z)
    : option subtree_data :=
  rt ← nodes G root;
  root_Q ← attr_Q rt;
  let root_P := default 0%Q (attr_P rt) in
  root_N ← inject_Z <$> attr_N rt;
  succs ← successors G root;
  st ← loop G uci root_Q loop_init succs;
  move_is_best ←
    match ls_move_node st with
    | Some m => mq ← nodes G m ≫= attr_Q; Some (Qle_bool (ls_max_Q st) mq)
    | None => Some false
    end;
  let bf := branching_factor G root in
  let width := width_profile (shortest_path_length G root) in
  let height := height_of width in
  Some (SubtreeData (ls_improving st) (ls_adv st) (ls_losing st) (ls_disadv st)
          (ls_move_node st) (ls_max_Q st) (ls_max_P st) (ls_max_N st)
          root_Q root_P root_N bf width height move_is_best).

(** ** [get_data]: parent, move of interest, and the four subsets *)

Record tree_data := TreeData {
  td_parent : subtree_data;
  td_move : option subtree_data;
  td_subsets : list (list subtree_data)
}.

Definition get_data (G : DiGraph) (uci : string) : option tree_data :=
  parent_data ← get_subtree_data G uci 0;
  move_data ←
    match move_node parent_data with
    | None => Some None
    | Some m => Some <$> get_subtree_data G uci m
    end;
  subsets ←
    mapM (mapM (get_subtree_data G uci))
      [improving_moves parent_data; adv_moves parent_data;
       losing_moves parent_data; disadv_moves parent_data];
  Some (TreeData parent_data move_data subsets).

(** ** Feature Transformer: [feature_transform] *)

Definition Qnat (n : nat) : Q := inject_Z (Z.of_nat n).

Definition Qbool (b : bool) : Q := if b then 1%Q else 0%Q.

(** [np.max] and [np.min] of a sequence; every call below passes a
    non-empty one. *)
Definition np_max (l : list Q) : Q :=
  match l with
  | [] => 0%Q
  | x :: l => foldl Qmax x l
  end.

Definition np_min (l : list Q) : Q :=
  match l with
  | [] => 0%Q
  | x :: l => foldl Qmin x l
  end.

(** The columns of a matrix given by its rows ([axis=0]). *)
Definition columns (rows : list (list Q)) : list (list Q) :=
  match rows with
  | [] => []
  | r :: _ => map (λ j, map (λ row, nth j row 0%Q) rows) (seq 0 (length r))
  end.

(** The blank feature vector of [parse_trees]:
    [(0,)*4 + (-1,) + (0,)*2 + (-1,) + (0,)*3 + (0,)*10 + (0,)]. *)
Definition defaults : list Q :=
  replicate 4 0%Q ++ [(-1)%Q] ++ replicate 2 0%Q ++ [(-1)%Q] ++
  replicate 3 0%Q ++ replicate 10 0%Q ++ [0%Q].

Section Numpy.

(** [np.mean] and [np.std] of a sequence of floats. *)
Variables np_mean np_std : list Q → Q.

(** [widths = list(width.values()); widths += [0] * (8-len(widths))]. *)
Definition padded_widths (width : list (nat * nat)) : list Q :=
  let widths := map Qnat width.*2 in
  widths ++ replicate (8 - length widths) 0%Q.

Definition feature_transform (d : subtree_data) : list Q :=
  let features :=
    map (λ i, Qnat (length i))
      [improving_moves d; adv_moves d; losing_moves d; disadv_moves d] in
  let features :=
    features ++ [max_Q d; max_P d; inject_Z (max_N d); root_Q d; root_P d;
                 root_N d; bf d] in
  let widths := padded_widths (width d) in
  let features := features ++ take 7 (drop 1 widths) in
  let features := features ++ [np_mean widths] in
  let features := features ++ [np_std widths] in
  let features := features ++ [np_max widths] in
  let features := features ++ [inject_Z (height d)] in
  features.

(** ** Move Feature Aggregator: the body of the [try] in [parse_trees] *)

(** The four aggregated vectors of one subset of moves. *)
Definition subset_features (subset : list subtree_data) : list (list Q) :=
  match subset with
  | [] => replicate 4 defaults
  | _ =>
      let cols := columns (map feature_transform subset) in
      [map np_mean cols; map np_std cols; map np_max cols; map np_min cols]
  end.

(** [features], before it is flattened into the row. *)
Definition tree_feature_list (t : tree_data) : list (list Q) :=
  [feature_transform (td_parent t);
   match td_move t with
   | Some d => feature_transform d
   | None => defaults
   end] ++ (td_subsets t ≫= subset_features).

(** What one tree contributes to the row of its move. *)
Definition tree_features (G : DiGraph) (uci : string) : option (list Q) :=
  t ← get_data G uci;
  let move_in_tree := bool_decide (is_Some (move_node (td_parent t))) in
  Some ([Qbool move_in_tree; Qbool (move_is_best (td_parent t))] ++
        concat (tree_feature_list t)).

(** ** Dataset Builder: [parse_trees] *)

(** A move folder: the move of interest and, for a weight index and a tree
    number, the graph [read_gml] returns ([None] when the file is missing or
    does not parse). *)
Record move_dir := MoveDir {
  md_uci : string;
  md_tree : nat → nat → option DiGraph
}.

(** One pass of the two nested loops: the row so far and the list of
    ["Bad tree"] reports. *)
Definition tree_step (m : move_dir) (st : list Q * list (nat * nat))
    (wt : nat * nat) : list Q * list (nat * nat) :=
  match md_tree m wt.1 wt.2 ≫= (λ G, tree_features G (md_uci m)) with
  | Some features => (st.1 ++ features, st.2)
  | None => (st.1, st.2 ++ [wt])
  end.

Definition tree_slots : list (nat * nat) :=
  wi ← seq 0 2; tree_num ← seq 1 5; [(wi, tree_num)].

Definition move_run (m : move_dir) : list Q * list (nat * nat) :=
  foldl (tree_step m) ([], []) tree_slots.

Definition move_row (m : move_dir) : list Q := (move_run m).1.

Definition bad_trees (m : move_dir) : list (nat * nat) := (move_run m).2.

End Numpy.

(** [X = X - mean; X[:, std>0] = X[:, std>0] / std[std>0]] on one entry. *)
Definition normalize_entry (x mean std : Q) : Q :=
  let x := (x - mean)%Q in
  if Qltb 0 std then (x / std)%Q else x.

Fixpoint normalize_entries (row mean std : list Q) : list Q :=
  match row, mean, std with
  | x :: row, m :: mean, s :: std =>
      normalize_entry x m s :: normalize_entries row mean std
  | _, _, _ => []
  end.

(** A row is normalized against statistics of its own length; numpy
    raises when the shapes differ. *)
Definition normalize_row (mean std row : list Q) : option (list Q) :=
  if decide (length row = length mean ∧ length mean = length std)
  then Some (normalize_entries row mean std)
  else None.

(** The matrix [parse_trees] returns, [None] when numpy raises. *)
Definition normalize (mean std : list Q) (X : list (list Q))
    : option (list (list Q)) :=
  match X with
  | [] => None
  | _ => mapM (normalize_row mean std) X
  end.

Definition parse_trees (np_mean np_std : list Q → Q)
    (moves : list move_dir) (mean std : list Q) : option (list (list Q)) :=
  normalize mean std (map (move_row np_mean np_std) moves).

(** ** Vocabulary of the statements *)

(** A node that carries the four attributes the loop reads. *)
Definition complete (G : DiGraph) (i : Z) : Prop :=
  ∃ N Q P move, nodes G i = Some (Node (Some N) (Some Q) (Some P) (Some move)).

(** The value estimate of a node. *)
Definition node_Q (G : DiGraph) (i : Z) : Q :=
  default 0%Q (nodes G i ≫= attr_Q).

(** Node [i] carries the move [uci]. *)
Definition has_move (G : DiGraph) (uci : string) (i : Z) : Prop :=
  nodes G i ≫= attr_move = Some uci.

#[global] Instance has_move_dec G uci i : Decision (has_move G uci i).
Proof. unfold has_move. apply _. Defined.

(** [if q > m: m = q]. *)
Definition running_max (m q : Q) : Q := if Qltb m q then q else m.

(** A walk of [n] edges from [u]. *)
Inductive path (G : DiGraph) (u : Z) : Z → nat → Prop :=
  | path_here : path G u u 0
  | path_step v w n : path G u v n → w ∈ adj G v → path G u w (S n).

Definition reachable (G : DiGraph) (u v : Z) : Prop := ∃ n, path G u v n.

(** [n] is the shortest-path distance from [u] to [v]. *)
Definition distance (G : DiGraph) (u v : Z) (n : nat) : Prop :=
  path G u v n ∧ ∀ m, path G u v m → (n ≤ m)%nat.

(** The targets of all edges, with repetitions. *)
Definition edge_targets (G : DiGraph) : list Z :=
  map_to_list (g_map G) ≫= (λ kv, v_succ kv.2).

(** What holds between two sweeps of [bfs]: [out] lists, without
    repetition, the nodes at distance at most [level], each with its
    distance, and [frontier] holds those at distance [level]. *)
Definition bfs_inv (G : DiGraph) (root : Z) (level : nat)
    (out : list (Z * nat)) (frontier : list Z) : Prop :=
  NoDup out.*1 ∧
  (∀ v n, (v, n) ∈ out → path G root v n ∧ (n ≤ level)%nat) ∧
  (∀ v m, path G root v m → (m ≤ level)%nat → ∃ n, (n ≤ m)%nat ∧ (v, n) ∈ out) ∧
  (∀ v, v ∈ frontier ↔ (v, level) ∈ out) ∧
  (∀ v n, (v, n) ∈ out → n = 0%nat ∨ v ∈ edge_targets G) ∧
  (frontier = [] ∨ (level < length out)%nat) ∧
  (width_profile out).*1 =
    seq 0 (match frontier with [] => level | _ => S level end).

(** The claim of the specification on repeated moves: the recorded node is
    the first successor that carries the move of interest. *)
Definition records_first_match (G : DiGraph) (uci : string) (root : Z) : Prop :=
  ∀ d succs,
    get_subtree_data G uci root = Some d →
    successors G root = Some succs →
    (1 < length (filter (has_move G uci) succs))%nat →
    move_node d = head (filter (has_move G uci) succs).

(** The claim of the specification on the four sets: every successor other
    than the recorded node is in exactly one set of each pair. *)
Definition partitions_other_successors (G : DiGraph) (uci : string) (root : Z)
    : Prop :=
  ∀ d succs i,
    get_subtree_data G uci root = Some d →
    successors G root = Some succs →
    i ∈ succs → move_node d ≠ Some i →
    ((i ∈ improving_moves d ∨ i ∈ losing_moves d) ∧
     ¬ (i ∈ improving_moves d ∧ i ∈ losing_moves d)) ∧
    ((i ∈ adv_moves d ∨ i ∈ disadv_moves d) ∧
     ¬ (i ∈ adv_moves d ∧ i ∈ disadv_moves d)).

(** The order of the three maxima in the specification's feature list:
    positions 4, 5, 6 hold [max_N], [max_Q], [max_P]. *)
Definition spec_maxima_order (features : list Q) (d : subtree_data) : Prop :=
  (nth 4 features 0 == inject_Z (max_N d))%Q ∧
  (nth 5 features 0 == max_Q d)%Q ∧
  (nth 6 features 0 == max_P d)%Q.

(** The sentinel vector as the specification describes it: zero everywhere
    but at the branching-factor slot (10) and the height slot (21). *)
Definition spec_sentinel : list Q :=
  replicate 10 0%Q ++ [(-1)%Q] ++ replicate 10 0%Q ++ [(-1)%Q].

(** The claim of the specification on a move of interest that is absent
    from the tree: its subtree slot holds [spec_sentinel]. *)
Definition emits_spec_sentinel (np_mean np_std : list Q → Q)
    (G : DiGraph) (uci : string) : Prop :=
  ∀ t, get_data G uci = Some t → move_node (td_parent t) = None →
       ∃ v, tree_feature_list np_mean np_std t !! 1%nat = Some v ∧
            Forall2 Qeq v spec_sentinel.

(** The normalization scenario of the specification: the column with
    [std = 0] keeps its input value 5. *)
Definition spec_normalization_scenario : Prop :=
  ∃ x y, normalize [1; 1]%Q [0; 2]%Q [[5; 5]%Q] = Some [[x; y]] ∧
         (x == 5)%Q ∧ (y == 2)%Q.


(** The prior and the visit count of a node. *)
Definition node_P (G : DiGraph) (i : Z) : Q :=
  default 0%Q (nodes G i ≫= attr_P).

Definition node_N (G : DiGraph) (i : Z) : Z :=
  default 0 (nodes G i ≫= attr_N).

(** [if n > m: m = n] on visit counts. *)
Definition running_max_Z (m n : Z) : Z := if m <? n then n else m.

(** The leaves that [get_subtree_data] counts for the branching factor. *)
Definition is_leaf (G : DiGraph) (x : Z) : Prop :=
  out_degree G x = 0%nat ∧ in_degree G x = 1%nat.


#[global] Instance is_leaf_dec G x : Decision (is_leaf G x).
Proof. unfold is_leaf. apply _. Defined.


(** What the tree of one slot contributes, [None] when the [try] fails. *)
Definition tree_block (np_mean np_std : list Q → Q) (m : move_dir)
    (wt : nat * nat) : option (list Q) :=
  md_tree m wt.1 wt.2 ≫= (λ G, tree_features np_mean np_std G (md_uci m)).


(** [row[index_flat(weight, tree, index, subtree, agg)]]. *)
Definition row_at (row : list Q) (weight tree index : nat)
    (subtree : option nat) (agg : nat) : option Q :=
  row !! Z.to_nat (Indexer.index_flat (Z.of_nat weight) (Z.of_nat tree)
                     (Z.of_nat index) (Z.of_nat <$> subtree) (Z.of_nat agg)).


(** ** The network: [NeuralNetworkDropout.forward] on one row *)

Module Network.

(** [x[a:b]] along the feature axis, for [0 <= a]; a slice that reaches past
    the end of [x] is cut short. *)
Definition slice (a b : Z) (x : list Q) : list Q :=
  take (Z.to_nat b - Z.to_nat a) (drop (Z.to_nat a) x).

(** The three [nn.Sequential] blocks as [__init__] sizes them: the hidden
    sizes and, for each block, the function it computes on an input of the
    size its first [nn.Linear] declares. *)
Record network := Net {
  h1 : nat;
  h2 : nat;
  tree_fn : list Q → list Q;
  weight_fn : list Q → list Q;
  final_fn : list Q → list Q
}.

(** A block applied to an input: [nn.Linear] raises unless the input has the
    declared number of features. *)
Definition run_block (in_features : nat) (fn : list Q → list Q)
    (v : list Q) : option (list Q) :=
  if decide (length v = in_features) then Some (fn v) else None.

(** [nn.Linear(22*18+2, h1)], [nn.Linear((h1+22*2+2)*2, h2)] and
    [nn.Linear(h2*5, h3)] followed by [nn.Linear(h3, 1)]. *)
Definition tree_layer (net : network) : list Q → option (list Q) :=
  run_block (22 * 18 + 2) (tree_fn net).

Definition weight_layer (net : network) : list Q → option (list Q) :=
  run_block ((h1 net + 22 * 2 + 2) * 2) (weight_fn net).

Definition final_layer (net : network) : list Q → option (list Q) :=
  run_block (h2 net * 5) (final_fn net).

(** The blocks return as many features as their last layer declares. *)
Definition sized (net : network) : Prop :=
  (∀ v, length v = (22 * 18 + 2)%nat → length (tree_fn net v) = h1 net) ∧
  (∀ v, length v = ((h1 net + 22 * 2 + 2) * 2)%nat →
        length (weight_fn net v) = h2 net) ∧
  (∀ v, length v = (h2 net * 5)%nat → length (final_fn net v) = 1%nat).

(** [h1s[tree][weight]]. *)
Definition tree_hidden (net : network) (x : list Q) (tree weight : Z)
    : option (list Q) :=
  tree_layer net
    (slice (Indexer.index_flat weight tree 0 None 0)
           (Indexer.index_flat weight (tree + 1) 0 None 0) x).

(** The three tensors [feats] receives for one weight. *)
Definition weight_feats (x : list Q) (tree weight : Z) (h : list Q) : list Q :=
  slice (Indexer.index_flat weight tree 0 None 0)
        (Indexer.index_flat weight tree 0 None 0 + 2) x ++
  slice (Indexer.index_flat weight tree 0 (Some 0) 0)
        (Indexer.index_flat weight tree 0 (Some 2) 0) x ++
  h.

Definition forward (net : network) (x : list Q) : option (list Q) :=
  h1s ← mapM (λ tree, mapM (tree_hidden net x tree) [0; 1]) [0; 1; 2; 3; 4];
  h2s ← mapM (λ th : Z * list (list Q),
                weight_layer net
                  (concat ((λ wh : Z * list Q, weight_feats x th.1 wh.1 wh.2)
                             <$> zip [0; 1] th.2)))
           (zip [0; 1; 2; 3; 4] h1s);
  final_layer net (concat h2s).

End Network.


(** ** [pgn_parser.py]: the moves of a parsed game *)

Module Pgn.

(** A node of a parsed game: the move that leads to it and its variations,
    the main line first ([chess.pgn.GameNode]). *)
#[local] Unset Elimination Schemes.
Inductive game_node := GameNode (uci : string) (variations : list game_node).
#[local] Set Elimination Schemes.

Definition gn_uci (n : game_node) : string :=
  match n with GameNode uci _ => uci end.

Definition variations (n : game_node) : list game_node :=
  match n with GameNode _ vs => vs end.

(** [node.next()]: the first variation, or [None]. *)
Definition next (n : game_node) : option game_node := head (variations n).

Inductive outcome (A : Type) :=
  | Returned (a : A)
  | Raised
  | OutOfFuel.
Arguments Returned {A} a.
Arguments Raised {A}.
Arguments OutOfFuel {A}.

(** The [while queue:] loop of [moves_from_pgn].  The queue and the list of
    moves hold what [next_moves] holds, which with [variations = False] can
    be [None]; reading [.variations] or calling [.next()] on [None] raises. *)
Fixpoint collect (fuel : nat) (with_variations : bool)
    (queue moves : list (option game_node))
    : outcome (list (option game_node)) :=
  match fuel with
  | O => OutOfFuel
  | S fuel =>
      match queue with
      | [] => Returned moves
      | curr :: queue =>
          match curr with
          | None => Raised
          | Some curr =>
              let next_moves :=
                if with_variations then Some <$> variations curr
                else [next curr] in
              collect fuel with_variations (queue ++ next_moves)
                (moves ++ next_moves)
          end
      end
  end.

(** The number of nodes of a game, and the number of nodes on its longest
    line. *)
Fixpoint size (n : game_node) : nat :=
  match n with GameNode _ vs => S (sum_list (size <$> vs)) end.

Fixpoint height (n : game_node) : nat :=
  match n with GameNode _ vs => S (max_list (height <$> vs)) end.

(** The number of nodes on the longest line of a forest. *)
Definition forest_height (q : list game_node) : nat := max_list (height <$> q).

(** [moves] as the loop leaves it for the game [game]. *)
Definition collect_moves (with_variations : bool) (game : game_node)
    : outcome (list (option game_node)) :=
  collect (S (S (size game))) with_variations [Some game] [].

(** The nodes [k] moves below a node, from the main line outwards. *)
Fixpoint level (k : nat) (n : game_node) : list game_node :=
  match k with
  | O => [n]
  | S k => variations n ≫= level k
  end.

(** The main line below a node. *)
Fixpoint main_line (fuel : nat) (n : game_node) : list game_node :=
  match fuel with
  | O => []
  | S fuel =>
      match next n with
      | None => []
      | Some v => v :: main_line fuel v
      end
  end.

(** A game without side lines: no node has more than one variation. *)
Fixpoint linear (n : game_node) : Prop :=
  match n with
  | GameNode _ [] => True
  | GameNode _ [v] => linear v
  | GameNode _ (_ :: _ :: _) => False
  end.

(** The nodes below a forest, level by level, down to [h] levels. *)
Fixpoint below (h : nat) (q : list game_node) : list game_node :=
  match h with
  | O => []
  | S h => (q ≫= variations) ++ below h (q ≫= variations)
  end.

End Pgn.


(** ** [training.py]: the epochs of [training_loop] *)

Module Training.

Section Loop.

(** The state torch keeps between batches (network, optimizer, samplers) is
    one value of type [W].  A pass over a loader that yields at least one
    batch maps it to the new state and to the three sums the loop
    accumulates: [current_loss], [correct] and [total].  [fdiv] is float
    division by a non-zero number. *)
Context {W : Type}.
Variables train_pass eval_pass : W → W * (Q * Q * Q).
Variables n_train n_test : nat.
Variable fdiv : Q → Q → Q.

(** [x / y]; division by zero raises. *)
Definition py_div (x y : Q) : option Q :=
  if Qeq_bool y 0 then None else Some (fdiv x y).

(** The variables of the loop.  [best_net] is either [None] or a second
    name for the one network object, so it is kept as a flag. *)
Record loop_vars := LoopVars {
  lv_network : W;
  lv_best_acc : Q;
  lv_best_epoch : nat;
  lv_best_net : bool;
  lv_early_stop_count : nat;
  lv_train_loss : list Q;
  lv_train_acc : list Q;
  lv_test_loss : list Q;
  lv_test_acc : list Q
}.

(** The body of [for epoch in range(0, num_epochs)] after the early-stop
    test.  After a loop over a loader of [n] batches, [k] is [n - 1]; with
    no training batch [k] is unbound, and with no test batch [correct /
    total] is [0 / 0]. *)
Definition epoch_body (epoch : nat) (v : loop_vars) : option loop_vars :=
  match n_train with
  | O => None
  | S k =>
      let '(network, (current_loss, correct, total)) :=
        train_pass (lv_network v) in
      train_loss ← py_div current_loss (Qnat k);
      train_acc ← py_div correct total;
      match n_test with
      | O => None
      | S k =>
          let '(network, (current_loss, correct, total)) := eval_pass network in
          val_acc ← py_div correct total;
          let better := Qltb (lv_best_acc v) val_acc in
          test_loss ← py_div current_loss (Qnat k);
          Some (LoopVars network
                  (if better then val_acc else lv_best_acc v)
                  (if better then epoch else lv_best_epoch v)
                  (better || lv_best_net v)
                  (if better then O else lv_early_stop_count v)
                  (lv_train_loss v ++ [train_loss])
                  (lv_train_acc v ++ [train_acc])
                  (lv_test_loss v ++ [test_loss])
                  (lv_test_acc v ++ [val_acc]))
      end
  end.

(** [early_stop_limit is not None and early_stop_count > early_stop_limit]. *)
Definition stops (early_stop_limit : option nat) (early_stop_count : nat) : bool :=
  match early_stop_limit with
  | Some limit => (limit <? early_stop_count)%nat
  | None => false
  end.

Fixpoint epochs (remaining epoch : nat) (early_stop_limit : option nat)
    (v : loop_vars) : option loop_vars :=
  match remaining with
  | O => Some v
  | S remaining =>
      let v := LoopVars (lv_network v) (lv_best_acc v) (lv_best_epoch v)
                 (lv_best_net v) (S (lv_early_stop_count v))
                 (lv_train_loss v) (lv_train_acc v) (lv_test_loss v)
                 (lv_test_acc v) in
      if stops early_stop_limit (lv_early_stop_count v) then Some v
      else v ← epoch_body epoch v; epochs remaining (S epoch) early_stop_limit v
  end.

(** The tuple [training_loop] returns; [best_net] is read through its
    reference when the function returns. *)
Record result := Result {
  r_network : W;
  r_best_net : option W;
  r_best_epoch : nat;
  r_best_acc : Q;
  r_train_loss : list Q;
  r_train_acc : list Q;
  r_test_loss : list Q;
  r_test_acc : list Q
}.

Definition training_loop (num_epochs : nat) (early_stop_limit : option nat)
    (network : W) : option result :=
  v ← epochs num_epochs 0 early_stop_limit
         (LoopVars network 0%Q 0 false 0 [] [] [] []);
  Some (Result (lv_network v)
          (if lv_best_net v then Some (lv_network v) else None)
          (lv_best_epoch v) (lv_best_acc v)
          (lv_train_loss v) (lv_train_acc v) (lv_test_loss v) (lv_test_acc v)).

(** The loop variables after [early_stop_count += 1]. *)
Definition bump (v : loop_vars) : loop_vars :=
  LoopVars (lv_network v) (lv_best_acc v) (lv_best_epoch v) (lv_best_net v)
    (S (lv_early_stop_count v)) (lv_train_loss v) (lv_train_acc v)
    (lv_test_loss v) (lv_test_acc v).

(** What the loop keeps true at the start of epoch [epoch]. *)
Definition loop_inv (early_stop_limit : option nat) (epoch : nat)
    (v : loop_vars) : Prop :=
  length (lv_test_acc v) = epoch ∧
  length (lv_train_loss v) = epoch ∧ length (lv_train_acc v) = epoch ∧
  length (lv_test_loss v) = epoch ∧
  (∀ j x, lv_test_acc v !! j = Some x → (x <= lv_best_acc v)%Q) ∧
  (if lv_best_net v
   then (0 < lv_best_acc v)%Q ∧
        lv_test_acc v !! lv_best_epoch v = Some (lv_best_acc v) ∧
        (∀ j x, (j < lv_best_epoch v)%nat → lv_test_acc v !! j = Some x →
                (x < lv_best_acc v)%Q) ∧
        (lv_best_epoch v + 1 + lv_early_stop_count v = epoch)%nat
   else lv_best_acc v = 0%Q ∧ lv_best_epoch v = 0%nat ∧
        lv_early_stop_count v = epoch) ∧
  (∀ limit, early_stop_limit = Some limit →
            (lv_early_stop_count v ≤ limit)%nat).

End Loop.

End Training.

(** ** Sample inputs *)

Module Samples.

(** The exact mean, and the standard deviation rounded down to a multiple
    of [2^-32]: one choice for the two numpy reductions. *)
Definition Qsum (l : list Q) : Q := foldl Qplus 0%Q l.

Definition mean_q (l : list Q) : Q := (Qsum l / Qnat (length l))%Q.

Definition sqrt_q (x : Q) : Q :=
  Qmake (Z.sqrt (Qnum x * 2 ^ 64 / QDen x)) (2 ^ 32).

Definition std_q (l : list Q) : Q :=
  let m := mean_q l in
  sqrt_q (mean_q (map (λ x, ((x - m) * (x - m))%Q) l)).

Definition leaf (N : Z) (Q P : Q) (move : string) : vertex :=
  Vertex (Node (Some N) (Some Q) (Some P) (Some move)) [].

(** A root with value -0.2 and two explored moves: e2e4 (Q=0.3, N=50,
    P=0.6), which has one reply, and d2d4 (Q=-0.1, N=30, P=0.3). *)
Definition two_moves : DiGraph :=
  Graph (list_to_map
    [(0, Vertex (Node (Some 80) (Some (-2 # 10)) None None) [1; 2]);
     (1, Vertex (Node (Some 50) (Some (3 # 10)) (Some (6 # 10)) (Some "e2e4")) [3]);
     (2, leaf 30 (-1 # 10) (3 # 10) "d2d4");
     (3, leaf 20 (-3 # 10) (9 # 10) "e7e5")]).

(** A root whose three successors include two that carry the move e2e4. *)
Definition twice_e2e4 : DiGraph :=
  Graph (list_to_map
    [(0, Vertex (Node (Some 10) (Some 0%Q) None None) [1; 2; 3]);
     (1, leaf 5 (1 # 2) (1 # 2) "e2e4");
     (2, leaf 3 (1 # 4) (1 # 4) "e2e4");
     (3, leaf 2 (-1 # 2) (1 # 4) "d2d4")]).

(** A root with a single explored move, d2d4. *)
Definition one_move : DiGraph :=
  Graph (list_to_map
    [(0, Vertex (Node (Some 10) (Some (-1 # 4)) None None) [1]);
     (1, leaf 9 (1 # 2) (1 # 1) "d2d4")]).

(** A move folder in which every tree file holds [two_moves]. *)
Definition all_trees : move_dir := MoveDir "e2e4" (λ _ _, Some two_moves).

(** The same folder without the file of the first weight set's first tree. *)
Definition one_missing : move_dir :=
  MoveDir "e2e4"
    (λ wi tree_num,
       if decide (wi = 0%nat ∧ tree_num = 1%nat) then None else Some two_moves).


(** The tree files of [all_trees]. *)
Definition md_tree_at (wi tree_num : nat) : option DiGraph :=
  md_tree all_trees wi tree_num.


(** A network that the blocks map to vectors of the declared sizes. *)
Definition zero_net : Network.network :=
  Network.Net 25 400 (λ _, replicate 25 0%Q) (λ _, replicate 400 0%Q)
    (λ _, [0%Q]).

(** A training run whose validation accuracy is 1/2, 3/4, 3/4, 1/4, ...:
    the state counts the epochs trained. *)
Definition sample_eval (w : nat) : nat * (Q * Q * Q) :=
  (w, (1%Q, nth (w - 1) [1 # 2; 3 # 4; 3 # 4] (1 # 4), 1%Q)).

Definition sample_train (w : nat) : nat * (Q * Q * Q) := (S w, (1%Q, 1%Q, 2%Q)).

(** A game with the main line e2e4 e7e5 and the side line d2d4. *)
Definition small_game : Pgn.game_node :=
  Pgn.GameNode ""
    [Pgn.GameNode "e2e4" [Pgn.GameNode "e7e5" []]; Pgn.GameNode "d2d4" []].


(** A game of three moves without side lines. *)
Definition short_game : Pgn.game_node :=
  Pgn.GameNode ""
    [Pgn.GameNode "e2e4" [Pgn.GameNode "e7e5" [Pgn.GameNode "g1f3" []]]].

End Samples.

(** * Properties *)

(** ** The Feature Indexer is a bijection onto [0, 3980) *)

Module IndexerFacts.
Import Indexer.

Lemma valid_validb a : valid a ↔ validb a = true.
Proof.
  unfold valid, validb. destruct (a_subtree a) as [s|];
    rewrite ?andb_true_iff, ?orb_true_iff, ?andb_true_iff;
    rewrite ?Z.leb_le, ?Z.ltb_lt, ?Z.eqb_eq; lia.
Qed.

Lemma offset_range a : valid a → 0 <= offset a < 3980.
Proof.
  destruct a as [w t i s g]. unfold valid, offset, index_flat. simpl.
  destruct s as [s|]; [destruct (Z.ltb_spec s 2)|]; lia.
Qed.

Lemma decode_valid n : 0 <= n < 3980 → valid (decode n).
Proof.
  intros Hn. unfold decode, block.
  assert (0 <= n / (5 * (22 * 18 + 2)) < 2)
    by (split; [apply Z.div_pos | apply Z.div_lt_upper_bound]; lia).
  pose proof (Z.mod_pos_bound n (5 * (22 * 18 + 2)) ltac:(lia)) as Hr.
  set (r := n mod (5 * (22 * 18 + 2))) in *.
  assert (0 <= r / (22 * 18 + 2) < 5)
    by (split; [apply Z.div_pos | apply Z.div_lt_upper_bound]; lia).
  pose proof (Z.mod_pos_bound r (22 * 18 + 2) ltac:(lia)) as Hk.
  set (k := r mod (22 * 18 + 2)) in *.
  destruct (Z.ltb_spec k 2); [unfold valid; simpl; lia|].
  destruct (Z.ltb_spec k (2 + 22 * 2)).
  - unfold valid; simpl.
    pose proof (Z.mod_pos_bound (k - 2) 22 ltac:(lia)).
    assert (0 <= (k - 2) / 22 < 2)
      by (split; [apply Z.div_pos | apply Z.div_lt_upper_bound]; lia).
    lia.
  - unfold valid; simpl.
    set (j := k - 2 - 22 * 2) in *.
    assert (0 <= j < 22 * 4 * 4) by (unfold j; lia).
    pose proof (Z.mod_pos_bound j 22 ltac:(lia)).
    pose proof (Z.mod_pos_bound j (22 * 4) ltac:(lia)).
    assert (0 <= j / (22 * 4) < 4)
      by (split; [apply Z.div_pos | apply Z.div_lt_upper_bound]; lia).
    assert (0 <= j mod (22 * 4) / 22 < 4)
      by (split; [apply Z.div_pos | apply Z.div_lt_upper_bound]; lia).
    lia.
Qed.

Lemma offset_decode n : 0 <= n < 3980 → offset (decode n) = n.
Proof.
  intros Hn. unfold decode, block.
  pose proof (Z.div_mod n (5 * (22 * 18 + 2)) ltac:(lia)) as Hn1.
  pose proof (Z.mod_pos_bound n (5 * (22 * 18 + 2)) ltac:(lia)) as Hr.
  set (r := n mod (5 * (22 * 18 + 2))) in *.
  set (w := n / (5 * (22 * 18 + 2))) in *.
  pose proof (Z.div_mod r (22 * 18 + 2) ltac:(lia)) as Hr1.
  pose proof (Z.mod_pos_bound r (22 * 18 + 2) ltac:(lia)) as Hk.
  set (k := r mod (22 * 18 + 2)) in *.
  set (t := r / (22 * 18 + 2)) in *.
  destruct (Z.ltb_spec k 2); [unfold offset, index_flat; simpl; lia|].
  destruct (Z.ltb_spec k (2 + 22 * 2)).
  - unfold offset, index_flat; simpl.
    pose proof (Z.div_mod (k - 2) 22 ltac:(lia)).
    pose proof (Z.mod_pos_bound (k - 2) 22 ltac:(lia)).
    destruct (Z.ltb_spec ((k - 2) / 22) 2); lia.
  - unfold offset, index_flat; simpl.
    set (j := k - 2 - 22 * 2) in *.
    assert (0 <= j) by (unfold j; lia).
    pose proof (Z.div_mod j (22 * 4) ltac:(lia)).
    pose proof (Z.mod_pos_bound j (22 * 4) ltac:(lia)).
    pose proof (Z.div_mod (j mod (22 * 4)) 22 ltac:(lia)).
    pose proof (Z.mod_pos_bound (j mod (22 * 4)) 22 ltac:(lia)).
    assert (j mod 22 = (j mod (22 * 4)) mod 22) as ->.
    { symmetry. replace (22 * 4) with (4 * 22) by lia.
      rewrite Z.mul_comm. rewrite Z.rem_mul_r by lia.
      rewrite Z.mul_comm, Z.mod_add by lia. apply Z.mod_mod. lia. }
    assert (0 <= j / (22 * 4)) by (apply Z.div_pos; lia).
    destruct (Z.ltb_spec (2 + j / (22 * 4)) 2); lia.
Qed.

Lemma offset_inj a b : valid a → valid b → offset a = offset b → a = b.
Proof.
  destruct a as [w t i s g], b as [w' t' i' s' g'].
  unfold valid, offset, index_flat. simpl. intros Ha Hb.
  destruct s as [s|], s' as [s'|];
    repeat match goal with
           | |- context [?x <? 2] => destruct (Z.ltb_spec x 2)
           end;
    intros Heq;
    assert (w = w') by lia; assert (t = t') by lia; subst;
    try lia;
    try (assert (s = s') by lia; subst);
    try (assert (g = g') by lia; subst);
    assert (i = i') by lia; congruence.
Qed.

(** C1.  Over the valid argument combinations [index_flat] takes its values
    in [0, 3980), takes no value twice, and takes every value of
    [0, 3980). *)
Theorem index_flat_bijection :
  (∀ a, valid a → 0 <= offset a < 3980) ∧
  (∀ a b, valid a → valid b → offset a = offset b → a = b) ∧
  (∀ n, 0 <= n < 3980 → ∃ a, valid a ∧ offset a = n).
Proof.
  split; [exact offset_range|]. split; [exact offset_inj|].
  intros n Hn. exists (decode n). split; [by apply decode_valid | by apply offset_decode].
Qed.

End IndexerFacts.

(** ** The loop over the successors *)

Lemma Qltb_lt x y : Qltb x y = true ↔ (x < y)%Q.
Proof. unfold Qltb, Qlt. apply Z.ltb_lt. Qed.

Lemma Qltb_ge x y : Qltb x y = false ↔ (y <= x)%Q.
Proof. unfold Qltb, Qle. rewrite Z.ltb_ge. reflexivity. Qed.

Lemma loop_body_Some G uci rq st i st' :
  loop_body G uci rq st i = Some st' →
  complete G i ∧
  ls_improving st' = ls_improving st ++
    filter (λ i, ¬ has_move G uci i ∧ Qltb 0 (node_Q G i - - rq) = true) [i] ∧
  ls_losing st' = ls_losing st ++
    filter (λ i, ¬ has_move G uci i ∧ Qltb 0 (node_Q G i - - rq) = false) [i] ∧
  ls_adv st' = ls_adv st ++
    filter (λ i, ¬ has_move G uci i ∧ Qltb 0 (node_Q G i) = true) [i] ∧
  ls_disadv st' = ls_disadv st ++
    filter (λ i, ¬ has_move G uci i ∧ Qltb 0 (node_Q G i) = false) [i] ∧
  ls_move_node st' = (if decide (has_move G uci i) then Some i else ls_move_node st) ∧
  ls_max_Q st' = running_max (ls_max_Q st) (node_Q G i).
Proof.
  intros Hst. unfold loop_body in Hst.
  destruct (nodes G i) as [[[N|] [q|] [P|] [mv|]]|] eqn:Hnd; simpl in Hst;
    try discriminate.
  assert (has_move G uci i ↔ mv = uci) as Hmv.
  { unfold has_move. rewrite Hnd. simpl. naive_solver. }
  assert (node_Q G i = q) as Hq by (unfold node_Q; by rewrite Hnd).
  split; [unfold complete; by eauto|].
  rewrite !filter_cons, !filter_nil. clear Hnd. subst q.
  destruct (decide (mv = uci)) as [->|Hne]; simplify_eq; simpl.
  - repeat case_decide; try tauto; rewrite ?app_nil_r; done.
  - destruct (Qltb 0 (node_Q G i - - rq)), (Qltb 0 (node_Q G i)); simpl;
      repeat case_decide; rewrite ?app_nil_r;
      try (exfalso; intuition congruence); done.
Qed.

Lemma loop_Some G uci rq succs : ∀ st st',
  loop G uci rq st succs = Some st' →
  Forall (complete G) succs ∧
  ls_improving st' = ls_improving st ++
    filter (λ i, ¬ has_move G uci i ∧ Qltb 0 (node_Q G i - - rq) = true) succs ∧
  ls_losing st' = ls_losing st ++
    filter (λ i, ¬ has_move G uci i ∧ Qltb 0 (node_Q G i - - rq) = false) succs ∧
  ls_adv st' = ls_adv st ++
    filter (λ i, ¬ has_move G uci i ∧ Qltb 0 (node_Q G i) = true) succs ∧
  ls_disadv st' = ls_disadv st ++
    filter (λ i, ¬ has_move G uci i ∧ Qltb 0 (node_Q G i) = false) succs ∧
  ls_move_node st' =
    from_option Some (ls_move_node st) (last (filter (has_move G uci) succs)) ∧
  ls_max_Q st' = foldl running_max (ls_max_Q st) (map (node_Q G) succs).
Proof.
  induction succs as [|i succs IH]; intros st st' Hloop; simpl in Hloop.
  - simplify_eq. rewrite !filter_nil, !app_nil_r. simpl. done.
  - destruct (loop_body G uci rq st i) as [st1|] eqn:Hbody; [|done].
    simpl in Hloop. apply loop_body_Some in Hbody as (Hc & E1 & E2 & E3 & E4 & E5 & E6).
    apply IH in Hloop as (Hcs & F1 & F2 & F3 & F4 & F5 & F6).
    split; [by constructor|].
    rewrite F1, F2, F3, F4, F5, F6, E1, E2, E3, E4, E5, E6.
    rewrite <- !(assoc_L (++)), <- !filter_app. simpl.
    repeat split; try done.
    rewrite (filter_cons (has_move G uci)).
    destruct (decide (has_move G uci i)); [|done].
    rewrite last_cons. by destruct (last _).
Qed.

Lemma loop_total G uci rq succs : ∀ st,
  Forall (complete G) succs → is_Some (loop G uci rq st succs).
Proof.
  induction succs as [|i succs IH]; intros st Hc; simpl; [by eauto|].
  apply Forall_cons in Hc as [(N & q & P & mv & Hi) Hc].
  unfold loop_body. rewrite Hi. simpl.
  destruct (decide (mv = uci)); simpl; by apply IH.
Qed.

Lemma running_max_le x l : ∀ m,
  (foldl running_max m l <= x)%Q ↔ (m <= x)%Q ∧ Forall (λ q, (q <= x)%Q) l.
Proof.
  induction l as [|q l IH]; intros m; simpl.
  - rewrite Forall_nil. tauto.
  - rewrite IH, Forall_cons. unfold running_max.
    destruct (Qltb m q) eqn:Hlt.
    + apply Qltb_lt in Hlt. intuition eauto using Qle_trans, Qlt_le_weak.
    + apply Qltb_ge in Hlt. intuition eauto using Qle_trans.
Qed.

(** ** What [get_subtree_data] returns *)

Lemma get_subtree_data_Some G uci root d :
  get_subtree_data G uci root = Some d →
  ∃ succs,
    successors G root = Some succs ∧
    Forall (complete G) succs ∧
    improving_moves d =
      filter (λ i, ¬ has_move G uci i ∧ Qltb 0 (node_Q G i - - root_Q d) = true) succs ∧
    losing_moves d =
      filter (λ i, ¬ has_move G uci i ∧ Qltb 0 (node_Q G i - - root_Q d) = false) succs ∧
    adv_moves d =
      filter (λ i, ¬ has_move G uci i ∧ Qltb 0 (node_Q G i) = true) succs ∧
    disadv_moves d =
      filter (λ i, ¬ has_move G uci i ∧ Qltb 0 (node_Q G i) = false) succs ∧
    move_node d = last (filter (has_move G uci) succs) ∧
    max_Q d = foldl running_max (-1)%Q (map (node_Q G) succs) ∧
    nodes G root ≫= attr_Q = Some (root_Q d) ∧
    move_is_best d =
      from_option (λ m, Qle_bool (max_Q d) (node_Q G m)) false (move_node d) ∧
    bf d = branching_factor G root ∧
    width d = width_profile (shortest_path_length G root) ∧
    height d = height_of (width d).
Proof.
  unfold get_subtree_data. intros H.
  destruct (nodes G root) as [rt|] eqn:Hrt; [|done]. simpl in H.
  destruct (attr_Q rt) as [rq|] eqn:Hrq; [|done]. simpl in H.
  destruct (attr_N rt) as [rn|]; [|done]. simpl in H.
  destruct (successors G root) as [succs|]; [|done]. simpl in H.
  destruct (loop G uci rq loop_init succs) as [st|] eqn:Hloop; [|done]. simpl in H.
  apply loop_Some in Hloop as (Hc & E1 & E2 & E3 & E4 & E5 & E6). simpl in *.
  exists succs. split; [done|]. split; [done|].
  assert (ls_move_node st = last (filter (has_move G uci) succs)) as E5'
    by (rewrite E5; by destruct (last _)).
  destruct (ls_move_node st) as [m|] eqn:Hm.
  - destruct (nodes G m ≫= attr_Q) as [mq|] eqn:Hmq; [|done]. simpl in H.
    inversion H; subst d; clear H. simpl.
    rewrite <- E5'. simpl.
    assert (node_Q G m = mq) as -> by (unfold node_Q; by rewrite Hmq).
    by rewrite Hrq.
  - simpl in H. inversion H; subst d; clear H. simpl.
    rewrite <- E5'. simpl. by rewrite Hrq.
Qed.

Lemma last_filter_elem {A} (P : A → Prop) `{!∀ x, Decision (P x)} l m :
  last (filter P l) = Some m → m ∈ l ∧ P m.
Proof.
  intros Hl. apply last_Some_elem_of in Hl.
  apply list_elem_of_filter in Hl. tauto.
Qed.

(** The extraction returns whenever the root carries [Q] and [N] and its
    successors carry all four attributes. *)
Lemma get_subtree_data_total G uci root rt rq rn succs :
  nodes G root = Some rt → attr_Q rt = Some rq → attr_N rt = Some rn →
  successors G root = Some succs → Forall (complete G) succs →
  is_Some (get_subtree_data G uci root).
Proof.
  intros Hrt Hrq Hrn Hsuccs Hc. unfold get_subtree_data.
  rewrite Hrt. simpl. rewrite Hrq. simpl. rewrite Hrn. simpl. rewrite Hsuccs. simpl.
  destruct (loop_total G uci rq succs loop_init Hc) as [st Hst].
  rewrite Hst. simpl.
  destruct (ls_move_node st) as [m|] eqn:Hm; [|by eauto].
  apply loop_Some in Hst as (_ & _ & _ & _ & _ & E5 & _). simpl in E5.
  rewrite Hm in E5.
  destruct (last (filter (has_move G uci) succs)) as [m'|] eqn:Hlast; [|done].
  simpl in E5. simplify_eq.
  apply last_filter_elem in Hlast as [Hin _].
  rewrite Forall_forall in Hc. destruct (Hc _ Hin) as (N & q & P & mv & Hn).
  rewrite Hn. simpl. by eauto.
Qed.

(** The scenario of the specification: querying e2e4 on [two_moves] finds
    the move, classifies the other child as losing and disadvantageous, and
    flags the move as best. *)
Example two_moves_scenario :
  ∃ d, get_subtree_data Samples.two_moves "e2e4" 0 = Some d ∧
       move_node d = Some 1 ∧
       improving_moves d = [] ∧ losing_moves d = [2] ∧
       adv_moves d = [] ∧ disadv_moves d = [2] ∧
       move_is_best d = true ∧ height d = 2.
Proof. eexists. split; [vm_compute; reflexivity|]. done. Qed.

(** ** The four sets of successors *)

(** C6 (amended).  Every successor of the root whose move differs from the
    move of interest lies in exactly one of improving/losing and in exactly
    one of advantageous/disadvantageous, and both unions are the successors
    whose move differs from the move of interest; these are the successors
    other than the recorded node whenever at most one successor carries
    that move. *)
Theorem successors_partitioned G uci root d succs :
  get_subtree_data G uci root = Some d →
  successors G root = Some succs →
  (∀ i, i ∈ succs → ¬ has_move G uci i →
     ((i ∈ improving_moves d ∨ i ∈ losing_moves d) ∧
      ¬ (i ∈ improving_moves d ∧ i ∈ losing_moves d)) ∧
     ((i ∈ adv_moves d ∨ i ∈ disadv_moves d) ∧
      ¬ (i ∈ adv_moves d ∧ i ∈ disadv_moves d))) ∧
  (∀ i, i ∈ improving_moves d ∨ i ∈ losing_moves d ↔
        i ∈ succs ∧ ¬ has_move G uci i) ∧
  (∀ i, i ∈ adv_moves d ∨ i ∈ disadv_moves d ↔
        i ∈ succs ∧ ¬ has_move G uci i) ∧
  ((∀ i j, i ∈ succs → j ∈ succs →
      has_move G uci i → has_move G uci j → i = j) →
   ∀ i, i ∈ succs → (¬ has_move G uci i ↔ move_node d ≠ Some i)).
Proof.
  intros Hd Hs.
  apply get_subtree_data_Some in Hd
    as (succs' & Hs' & _ & E1 & E2 & E3 & E4 & E5 & _).
  assert (succs' = succs) as -> by congruence.
  rewrite E1, E2, E3, E4, E5. clear E1 E2 E3 E4 E5.
  split; [|split; [|split]].
  - intros i Hi Hno. rewrite !list_elem_of_filter.
    destruct (Qltb 0 (node_Q G i - - root_Q d)), (Qltb 0 (node_Q G i));
      intuition congruence.
  - intros i. rewrite !list_elem_of_filter.
    destruct (Qltb 0 (node_Q G i - - root_Q d)); intuition congruence.
  - intros i. rewrite !list_elem_of_filter.
    destruct (Qltb 0 (node_Q G i)); intuition congruence.
  - intros Huniq i Hi. split.
    + intros Hno Hlast. apply last_filter_elem in Hlast. tauto.
    + intros Hne Hmv. apply Hne.
      destruct (last (filter (has_move G uci) succs)) as [j|] eqn:Hlast.
      * apply last_filter_elem in Hlast as [? ?]. f_equal. eauto.
      * apply last_None in Hlast.
        assert (i ∈ filter (has_move G uci) succs) as Hin
          by (by apply list_elem_of_filter).
        rewrite Hlast in Hin. by apply elem_of_nil in Hin.
Qed.

Lemma successors_partitioned_witness :
  ∃ d, get_subtree_data Samples.twice_e2e4 "e2e4" 0 = Some d ∧
       successors Samples.twice_e2e4 0 = Some [1; 2; 3] ∧
       ∀ i, i ∈ improving_moves d ∨ i ∈ losing_moves d ↔
            i ∈ [1; 2; 3] ∧ ¬ has_move Samples.twice_e2e4 "e2e4" i.
Proof.
  eexists. split; [vm_compute; reflexivity|]. split; [reflexivity|].
  apply (successors_partitioned Samples.twice_e2e4 "e2e4" 0 _ [1; 2; 3]);
    reflexivity.
Defined.

(** With two successors carrying the move of interest, the first of them is
    not the recorded node and is in none of the four sets. *)
Lemma successors_partitioned_counterexample :
  ¬ partitions_other_successors Samples.twice_e2e4 "e2e4" 0.
Proof.
  intros Hclaim.
  destruct (get_subtree_data Samples.twice_e2e4 "e2e4" 0) as [d|] eqn:Hd;
    [|vm_compute in Hd; discriminate].
  destruct (Hclaim d [1; 2; 3] 1 Hd eq_refl) as [[Hin _] _].
  - set_solver.
  - vm_compute in Hd. inversion Hd. simpl. discriminate.
  - vm_compute in Hd. inversion Hd; subst d; simpl in Hin.
    destruct Hin as [Hin|Hin]; apply list_elem_of_In in Hin; simpl in Hin; lia.
Qed.

(** ** The recorded move-of-interest node *)

(** C9 (amended).  The recorded move-of-interest node is the last successor,
    in iteration order, that carries the move of interest. *)
Theorem move_node_last_match G uci root d succs :
  get_subtree_data G uci root = Some d →
  successors G root = Some succs →
  move_node d = last (filter (has_move G uci) succs).
Proof.
  intros Hd Hs.
  apply get_subtree_data_Some in Hd as (succs' & Hs' & _ & _ & _ & _ & _ & E & _).
  congruence.
Qed.

Lemma move_node_last_match_witness :
  ∃ d, get_subtree_data Samples.twice_e2e4 "e2e4" 0 = Some d ∧
       successors Samples.twice_e2e4 0 = Some [1; 2; 3] ∧
       move_node d = last (filter (has_move Samples.twice_e2e4 "e2e4") [1; 2; 3]).
Proof.
  eexists. split; [vm_compute; reflexivity|]. split; [reflexivity|].
  apply (move_node_last_match Samples.twice_e2e4 "e2e4" 0 _ [1; 2; 3]);
    reflexivity.
Defined.

(** Successors 1 and 2 both carry e2e4; node 2 is recorded, not node 1. *)
Lemma move_node_first_match_counterexample :
  ¬ records_first_match Samples.twice_e2e4 "e2e4" 0.
Proof.
  intros Hclaim.
  destruct (get_subtree_data Samples.twice_e2e4 "e2e4" 0) as [d|] eqn:Hd;
    [|vm_compute in Hd; discriminate].
  specialize (Hclaim d [1; 2; 3] Hd eq_refl).
  erewrite (move_node_last_match _ _ _ _ [1; 2; 3]) in Hclaim by done.
  vm_compute in Hclaim. discriminate Hclaim. lia.
Qed.

(** ** The best-move flag *)

(** C8.  When the move of interest was found and every successor's Q lies in
    [-1, 1], the flag holds exactly when the Q of the move-of-interest node
    is at least the Q of every other successor of the root. *)
Theorem move_is_best_iff G uci root d m succs :
  get_subtree_data G uci root = Some d →
  move_node d = Some m →
  successors G root = Some succs →
  (∀ i, i ∈ succs → ((-1)%Q <= node_Q G i)%Q ∧ (node_Q G i <= 1)%Q) →
  move_is_best d = true ↔
  ∀ i, i ∈ succs → i ≠ m → (node_Q G i <= node_Q G m)%Q.
Proof.
  intros Hd Hm Hs Hrange.
  apply get_subtree_data_Some in Hd
    as (succs' & Hs' & _ & _ & _ & _ & _ & Hlast & Hmax & _ & Hbest & _).
  assert (succs' = succs) as -> by congruence.
  rewrite Hm in Hlast, Hbest. simpl in Hbest.
  symmetry in Hlast. apply last_filter_elem in Hlast as [Hin _].
  rewrite Hbest, Hmax, Qle_bool_iff, running_max_le, Forall_fmap, Forall_forall.
  simpl. split.
  - intros [_ Hall] i Hi _. by apply Hall.
  - intros Hall. split; [by apply Hrange|].
    intros i Hi. destruct (decide (i = m)) as [->|Hne]; [apply Qle_refl|].
    by apply Hall.
Qed.

Lemma move_is_best_iff_witness :
  ∃ d, get_subtree_data Samples.two_moves "e2e4" 0 = Some d ∧
       move_node d = Some 1 ∧
       successors Samples.two_moves 0 = Some [1; 2] ∧
       (∀ i, i ∈ [1; 2] → ((-1)%Q <= node_Q Samples.two_moves i)%Q ∧
                           (node_Q Samples.two_moves i <= 1)%Q) ∧
       (move_is_best d = true ↔
        ∀ i, i ∈ [1; 2] → i ≠ 1 →
             (node_Q Samples.two_moves i <= node_Q Samples.two_moves 1)%Q).
Proof.
  assert (∀ i, i ∈ [1; 2] → ((-1)%Q <= node_Q Samples.two_moves i)%Q ∧
                             (node_Q Samples.two_moves i <= 1)%Q) as Hrange.
  { intros i Hi. apply list_elem_of_In in Hi.
    destruct Hi as [<-|[<-|[]]]; vm_compute; split; discriminate. }
  eexists. split; [vm_compute; reflexivity|]. split; [reflexivity|].
  split; [reflexivity|]. split; [exact Hrange|].
  apply (move_is_best_iff Samples.two_moves "e2e4" 0 _ 1 [1; 2]);
    [reflexivity | reflexivity | reflexivity | exact Hrange].
Defined.

(** ** Breadth-first distances *)

Lemma discover_spec ws : ∀ seen,
  NoDup (discover seen ws) ∧
  ∀ w, w ∈ discover seen ws ↔ w ∈ ws ∧ w ∉ seen.
Proof.
  induction ws as [|x ws IH]; intros seen; simpl.
  - split; [constructor|]. intros w. rewrite elem_of_nil. tauto.
  - destruct (decide (x ∈ seen)) as [Hx|Hx].
    + destruct (IH seen) as [Hnd Hin]. split; [done|].
      intros w. rewrite Hin, elem_of_cons. split; [tauto|].
      intros [[->|Hw] Hs]; tauto.
    + destruct (IH (x :: seen)) as [Hnd Hin]. split.
      * apply NoDup_cons. split; [|done]. rewrite Hin, elem_of_cons. tauto.
      * intros w. rewrite !elem_of_cons, Hin, elem_of_cons.
        destruct (decide (w = x)) as [->|Hne]; tauto.
Qed.

Lemma adj_edge_targets G v w : w ∈ adj G v → w ∈ edge_targets G.
Proof.
  unfold adj, successors, edge_targets.
  destruct (g_map G !! v) as [vx|] eqn:Hv; simpl; [|by rewrite elem_of_nil].
  intros Hw. apply list_elem_of_bind. exists (v, vx). split; [done|].
  by apply elem_of_map_to_list.
Qed.

Lemma path_zero G u v : path G u v 0 → v = u.
Proof. by inversion 1. Qed.

(** *** The width dictionary *)

Lemma width_incr_keys v w :
  (width_incr v w).*1 = if decide (v ∈ w.*1) then w.*1 else w.*1 ++ [v].
Proof.
  induction w as [|[k c] w IH]; csimpl; [done|].
  destruct (decide (k = v)) as [->|Hne]; csimpl.
  - rewrite decide_True by (apply elem_of_cons; tauto). done.
  - rewrite IH. destruct (decide (v ∈ w.*1)).
    + rewrite decide_True by (apply elem_of_cons; tauto). done.
    + rewrite decide_False; [done|]. rewrite elem_of_cons. intros [?|?]; congruence.
Qed.

Lemma width_incr_get v w k :
  width_get (width_incr v w) k =
  if decide (v = k) then S (width_get w k) else width_get w k.
Proof.
  induction w as [|[k' c] w IH]; simpl.
  - repeat case_decide; done.
  - destruct (decide (k' = v)) as [->|Hne]; simpl.
    + repeat case_decide; done.
    + rewrite IH. repeat case_decide; congruence.
Qed.

Lemma width_incr_sum v w : sum_list (width_incr v w).*2 = S (sum_list w.*2).
Proof.
  induction w as [|[k c] w IH]; csimpl; [done|].
  destruct (decide (k = v)); csimpl; [done|]. rewrite IH. lia.
Qed.

Lemma width_fold_get k l : ∀ w,
  width_get (foldl (λ width (kv : Z * nat), width_incr kv.2 width) w l) k =
  (width_get w k + length (filter (λ e : Z * nat, e.2 = k) l))%nat.
Proof.
  induction l as [|[x v] l IH]; intros w; simpl; [lia|].
  rewrite IH, width_incr_get, filter_cons. simpl.
  repeat case_decide; simpl; lia.
Qed.

Lemma width_fold_sum l : ∀ w,
  sum_list (foldl (λ width (kv : Z * nat), width_incr kv.2 width) w l).*2 =
  (sum_list w.*2 + length l)%nat.
Proof.
  induction l as [|[x v] l IH]; intros w; simpl; [lia|].
  rewrite IH, width_incr_sum. lia.
Qed.

Lemma width_fold_keys_same (xs : list Z) (v : nat) : ∀ w,
  (foldl (λ width (kv : Z * nat), width_incr kv.2 width) w ((λ x, (x, v)) <$> xs)).*1 =
  match xs with
  | [] => w.*1
  | _ => if decide (v ∈ w.*1) then w.*1 else w.*1 ++ [v]
  end.
Proof.
  induction xs as [|x xs IH]; intros w; simpl; [done|].
  rewrite IH, width_incr_keys. simpl.
  destruct xs as [|y xs]; [done|].
  destruct (decide (v ∈ w.*1)); [by rewrite decide_True|].
  rewrite decide_True; [done|]. apply elem_of_app. right. by apply list_elem_of_singleton.
Qed.

(** *** The sweeps keep [bfs_inv] *)

Lemma keys_at_level (xs : list Z) (v : nat) : ((λ x, (x, v)) <$> xs).*1 = xs.
Proof. induction xs as [|x xs IH]; csimpl; [done|]. by rewrite IH. Qed.

Lemma bfs_inv_init G root : bfs_inv G root 0 [(root, 0%nat)] [root].
Proof.
  unfold bfs_inv. split_and!.
  - apply NoDup_singleton.
  - intros v n Hv. apply list_elem_of_singleton in Hv. inversion Hv.
    split; [constructor | lia].
  - intros v m Hp Hm. assert (m = 0%nat) as -> by lia.
    apply path_zero in Hp as ->. exists 0%nat. split; [lia|].
    by apply list_elem_of_singleton.
  - intros v. rewrite !list_elem_of_singleton. split; [by intros ->|].
    by inversion 1.
  - intros v n Hv. apply list_elem_of_singleton in Hv. inversion Hv. by left.
  - right. simpl. lia.
  - done.
Qed.

Lemma bfs_inv_step G root level out frontier :
  frontier ≠ [] →
  bfs_inv G root level out frontier →
  bfs_inv G root (S level)
    (out ++ ((λ w, (w, S level)) <$> discover out.*1 (frontier ≫= adj G)))
    (discover out.*1 (frontier ≫= adj G)).
Proof.
  intros Hne (Hnd & Hsound & Hcomp & Hfr & Htg & Hlen & Hkeys).
  destruct (discover_spec (frontier ≫= adj G) out.*1) as [Hnd' Hin'].
  set (next := discover out.*1 (frontier ≫= adj G)) in *.
  assert (∀ w, w ∈ next → ∃ u, path G root u level ∧ w ∈ adj G u) as Hstep.
  { intros w Hw. apply Hin' in Hw as [Hw _].
    apply list_elem_of_bind in Hw as (u & Hw & Hu).
    exists u. split; [|done]. by apply Hsound, Hfr. }
  split; [|split; [|split; [|split; [|split; [|split]]]]].
  - rewrite fmap_app, keys_at_level. apply NoDup_app. split; [done|].
    split; [|done]. intros x Hx Hx'. apply Hin' in Hx'. tauto.
  - intros v n Hv. apply elem_of_app in Hv as [Hv|Hv].
    + apply Hsound in Hv as [? ?]. split; [done|lia].
    + apply list_elem_of_fmap in Hv as (w & Heq & Hw). inversion Heq; subst v n.
      apply Hstep in Hw as (u & Hu & Hw). split; [|lia]. by eapply path_step.
  - intros v m Hp Hm. destruct (decide (m ≤ level)%nat) as [Hle|Hgt].
    { destruct (Hcomp v m Hp Hle) as (n & ? & ?). exists n. split; [done|].
      apply elem_of_app. by left. }
    assert (m = S level) as -> by lia.
    inversion Hp as [|u w n Hu Hw]; subst.
    destruct (Hcomp u level Hu ltac:(lia)) as (n & Hn & Hun).
    destruct (decide (n = level)) as [->|Hnl].
    + destruct (decide (v ∈ out.*1)) as [Hv|Hv].
      * apply list_elem_of_fmap in Hv as ([v' n'] & Heq & Hv). simpl in Heq. subst v'.
        exists n'. split; [|apply elem_of_app; by left].
        apply Hsound in Hv. lia.
      * exists (S level). split; [lia|]. apply elem_of_app. right.
        apply list_elem_of_fmap. exists v. split; [done|]. apply Hin'. split; [|done].
        apply list_elem_of_bind. exists u. split; [done|]. by apply Hfr.
    + assert (path G root v (S n)) as Hp'.
      { eapply path_step; [|done]. by apply Hsound. }
      destruct (Hcomp v (S n) Hp' ltac:(lia)) as (n' & ? & ?).
      exists n'. split; [lia|]. apply elem_of_app. by left.
  - intros v. split.
    + intros Hv. apply elem_of_app. right. apply list_elem_of_fmap. by exists v.
    + intros Hv. apply elem_of_app in Hv as [Hv|Hv].
      * apply Hsound in Hv. lia.
      * apply list_elem_of_fmap in Hv as (w & Heq & Hw). by inversion Heq; subst.
  - intros v n Hv. apply elem_of_app in Hv as [Hv|Hv]; [by eapply Htg|].
    apply list_elem_of_fmap in Hv as (w & Heq & Hw). inversion Heq; subst v n.
    apply Hstep in Hw as (u & _ & Hw). right. by eapply adj_edge_targets.
  - destruct next as [|x next']; [by left|]. right.
    rewrite length_app, length_fmap. simpl.
    destruct Hlen as [?|?]; [done|lia].
  - unfold width_profile in *. rewrite foldl_app, width_fold_keys_same, Hkeys.
    destruct frontier as [|f frontier]; [done|].
    destruct next as [|x next']; [done|].
    rewrite decide_False by (rewrite elem_of_seq; lia).
    by rewrite (seq_S (S level)).
Qed.

Lemma bfs_inv_length G root level out frontier :
  bfs_inv G root level out frontier → (length out ≤ S (number_of_edges G))%nat.
Proof.
  intros (Hnd & Hsound & _ & _ & Htg & _).
  rewrite <- (length_fmap fst out).
  change (S (number_of_edges G)) with (length (root :: edge_targets G)).
  apply submseteq_length, NoDup_submseteq; [done|].
  intros v Hv. apply list_elem_of_fmap in Hv as ([v' n] & Heq & Hv). simpl in Heq. subst v'.
  apply elem_of_cons. destruct (Htg v n Hv) as [->|?]; [|by right].
  left. apply Hsound in Hv as [Hp _]. by apply path_zero in Hp.
Qed.

(** The fuel of [shortest_path_length] is never used up: the sweeps stop
    at an empty frontier. *)
Lemma bfs_fuel_enough G root fuel : ∀ level out frontier,
  bfs_inv G root level out frontier →
  (S (number_of_edges G) ≤ fuel + level)%nat →
  ∃ k, bfs_inv G root k (bfs fuel G level out frontier) [].
Proof.
  induction fuel as [|fuel IH]; intros level out frontier Hinv Hfuel; simpl.
  - exists level. pose proof (bfs_inv_length _ _ _ _ _ Hinv) as Hlen.
    destruct Hinv as (? & ? & ? & ? & ? & [->|?] & ?); [|lia].
    unfold bfs_inv. split_and!; try done. by left.
  - destruct frontier as [|f frontier]; [by exists level|].
    apply IH; [|lia]. by apply bfs_inv_step.
Qed.

Lemma bfs_inv_complete G root k out :
  bfs_inv G root k out [] →
  ∀ m v, path G root v m → ∃ n, (n ≤ m)%nat ∧ (v, n) ∈ out.
Proof.
  intros (_ & Hsound & Hcomp & Hfr & _).
  induction m as [m IH] using lt_wf_ind. intros v Hp.
  destruct (decide (m ≤ k)%nat) as [Hle|Hgt]; [by apply Hcomp|].
  inversion Hp as [|u w m' Hu Hw]; subst; [lia|].
  destruct (IH m' ltac:(lia) u Hu) as (n & Hn & Hun).
  destruct (Hsound u n Hun) as [Hpu Hnk].
  assert (n ≠ k) as Hnk'.
  { intros ->. apply Hfr in Hun. by apply elem_of_nil in Hun. }
  destruct (Hcomp v (S n)) as (n' & ? & ?); [by eapply path_step | lia|].
  exists n'. split; [lia|done].
Qed.

Lemma NoDup_keys_functional {A B} (l : list (A * B)) x y1 y2 :
  NoDup l.*1 → (x, y1) ∈ l → (x, y2) ∈ l → y1 = y2.
Proof.
  induction l as [|[a b] l IH]; csimpl; intros Hnd H1 H2.
  - by apply elem_of_nil in H1.
  - apply NoDup_cons in Hnd as [Ha Hnd].
    assert (∀ y, (a, y) ∈ l → False) as Hno.
    { intros y Hy. apply Ha. apply list_elem_of_fmap. by exists (a, y). }
    apply elem_of_cons in H1 as [H1|H1], H2 as [H2|H2]; simplify_eq;
      try done; try (exfalso; by eauto); by apply IH.
Qed.

(** [shortest_path_length] lists every node reachable from the root once,
    with its shortest-path distance, by increasing distance. *)
Lemma shortest_path_length_spec G root :
  NoDup (shortest_path_length G root).*1 ∧
  (∀ v n, (v, n) ∈ shortest_path_length G root ↔ distance G root v n) ∧
  (∀ v, v ∈ (shortest_path_length G root).*1 ↔ reachable G root v) ∧
  (∃ h, (width_profile (shortest_path_length G root)).*1 = seq 0 h).
Proof.
  unfold shortest_path_length.
  destruct (bfs_fuel_enough G root (S (number_of_edges G)) 0 [(root, 0%nat)] [root])
    as [k Hinv]; [apply bfs_inv_init | lia|].
  set (spl := bfs _ _ _ _ _) in *.
  pose proof (bfs_inv_complete _ _ _ _ Hinv) as Hall.
  destruct Hinv as (Hnd & Hsound & _ & _ & _ & _ & Hkeys).
  assert (∀ v n, (v, n) ∈ spl ↔ distance G root v n) as Hdist.
  { intros v n. split.
    - intros Hv. split; [by apply Hsound|]. intros m Hp.
      destruct (Hall m v Hp) as (n' & Hle & Hv').
      by rewrite (NoDup_keys_functional spl v n n').
    - intros [Hp Hmin]. destruct (Hall n v Hp) as (n' & Hle & Hv').
      assert (n = n') as ->; [|done].
      apply Hsound in Hv' as [Hp' _]. apply Hmin in Hp'. lia. }
  split; [done|]. split; [done|]. split; [|by eauto].
  intros v. rewrite list_elem_of_fmap. split.
  - intros ([v' n] & -> & Hv). exists n. by apply Hsound.
  - intros [m Hp]. destruct (Hall m v Hp) as (n & _ & Hv). by exists (v, n).
Qed.

(** ** The width profile *)

(** C7.  The width profile of an extraction counts the nodes reachable from
    the root (the root included) by shortest-path distance: each reachable
    node is counted once, under its distance, and the widths add up to the
    number of reachable nodes. *)
Theorem width_profile_counts_reachable G uci root d :
  get_subtree_data G uci root = Some d →
  ∃ reach : list (Z * nat),
    NoDup reach.*1 ∧
    (∀ v, v ∈ reach.*1 ↔ reachable G root v) ∧
    (∀ v n, (v, n) ∈ reach ↔ distance G root v n) ∧
    NoDup (width d).*1 ∧
    (∀ k, width_get (width d) k =
          length (filter (λ e : Z * nat, e.2 = k) reach)) ∧
    sum_list (width d).*2 = length reach.
Proof.
  intros Hd.
  apply get_subtree_data_Some in Hd
    as (_ & _ & _ & _ & _ & _ & _ & _ & _ & _ & _ & _ & Hw & _).
  destruct (shortest_path_length_spec G root) as (Hnd & Hdist & Hreach & h & Hkeys).
  exists (shortest_path_length G root). rewrite Hw.
  split_and!; try done.
  - rewrite Hkeys. apply NoDup_seq.
  - intros k. unfold width_profile. by rewrite width_fold_get.
  - unfold width_profile. by rewrite width_fold_sum.
Qed.

Lemma width_profile_counts_reachable_witness :
  ∃ d, get_subtree_data Samples.two_moves "e2e4" 0 = Some d ∧
       ∃ reach : list (Z * nat),
         NoDup reach.*1 ∧
         (∀ v, v ∈ reach.*1 ↔ reachable Samples.two_moves 0 v) ∧
         (∀ v n, (v, n) ∈ reach ↔ distance Samples.two_moves 0 v n) ∧
         NoDup (width d).*1 ∧
         (∀ k, width_get (width d) k =
               length (filter (λ e : Z * nat, e.2 = k) reach)) ∧
         sum_list (width d).*2 = length reach.
Proof.
  eexists. split; [vm_compute; reflexivity|].
  apply (width_profile_counts_reachable Samples.two_moves "e2e4" 0).
  reflexivity.
Defined.

(** C10.  The width profile of an extraction counts at least one node at
    depth 0, so the height is never negative: it is never the sentinel -1. *)
Theorem height_never_sentinel G uci root d :
  get_subtree_data G uci root = Some d →
  (1 ≤ width_get (width d) 0)%nat ∧ 0 <= height d ∧ height d ≠ -1.
Proof.
  intros Hd.
  apply get_subtree_data_Some in Hd
    as (_ & _ & _ & _ & _ & _ & _ & _ & _ & _ & _ & _ & Hw & Hh).
  destruct (shortest_path_length_spec G root) as (_ & Hdist & _).
  assert ((root, 0%nat) ∈ shortest_path_length G root) as Hroot.
  { apply Hdist. split; [constructor | lia]. }
  assert (1 ≤ width_get (width d) 0)%nat as H0.
  { rewrite Hw. unfold width_profile. rewrite width_fold_get. simpl.
    assert ((root, 0%nat) ∈ filter (λ e : Z * nat, e.2 = 0%nat)
              (shortest_path_length G root)) as Hin
      by (by apply list_elem_of_filter).
    destruct (filter _ _); [by apply elem_of_nil in Hin | simpl; lia]. }
  split; [done|]. rewrite Hh. unfold height_of.
  destruct (width d); [simpl in H0; lia | lia].
Qed.

Lemma height_never_sentinel_witness :
  ∃ d, get_subtree_data Samples.two_moves "e2e4" 0 = Some d ∧
       (1 ≤ width_get (width d) 0)%nat ∧ 0 <= height d ∧ height d ≠ -1.
Proof.
  eexists. split; [vm_compute; reflexivity|].
  apply (height_never_sentinel Samples.two_moves "e2e4" 0). reflexivity.
Defined.

(** ** The feature vector of a subtree *)

Lemma width_get_absent w k : k ∉ w.*1 → width_get w k = 0%nat.
Proof.
  induction w as [|[k' c] w IH]; csimpl; [done|].
  rewrite elem_of_cons. intros Hk.
  destruct (decide (k' = k)) as [->|?]; [tauto|]. apply IH. tauto.
Qed.

Lemma width_values_in_order w : ∀ s,
  w.*1 = seq s (length w) → w.*2 = width_get w <$> seq s (length w).
Proof.
  induction w as [|[k c] w IH]; intros s; csimpl; [done|].
  intros Hkeys.
  assert (k = s ∧ w.*1 = seq (S s) (length w)) as [-> Hkeys']
    by (by inversion Hkeys).
  rewrite decide_True by done. f_equal.
  etrans; [apply (IH (S s) Hkeys')|].
  apply list_fmap_ext. intros i k Hi.
  apply lookup_seq in Hi as [-> _].
  rewrite decide_False by lia. done.
Qed.

Lemma padded_widths_by_depth w :
  w.*1 = seq 0 (length w) →
  padded_widths w = (λ k, Qnat (width_get w k)) <$> seq 0 (length w `max` 8).
Proof.
  intros Hkeys. unfold padded_widths.
  rewrite (width_values_in_order w 0 Hkeys).
  change (map Qnat ?l) with (Qnat <$> l).
  rewrite <- list_fmap_compose, length_fmap, length_seq.
  replace (length w `max` 8)%nat with (length w + (8 - length w))%nat by lia.
  rewrite seq_app, fmap_app. f_equal. simpl.
  generalize (8 - length w)%nat as r. intros r.
  assert (∀ k, k ∈ seq (length w) r → width_get w k = 0%nat) as Hzero.
  { intros k Hk. apply width_get_absent. rewrite Hkeys, elem_of_seq.
    apply elem_of_seq in Hk. lia. }
  revert Hzero. generalize (length w) as s.
  induction r as [|r IH]; intros s Hzero; simpl; [done|].
  rewrite Hzero by (apply elem_of_cons; by left). f_equal.
  apply IH. intros k Hk. apply Hzero. apply elem_of_cons. by right.
Qed.

Lemma extraction_width_keys G uci root d :
  get_subtree_data G uci root = Some d → (width d).*1 = seq 0 (length (width d)).
Proof.
  intros Hd.
  apply get_subtree_data_Some in Hd
    as (_ & _ & _ & _ & _ & _ & _ & _ & _ & _ & _ & _ & Hw & _).
  destruct (shortest_path_length_spec G root) as (_ & _ & _ & h & Hkeys).
  rewrite Hw. rewrite Hkeys. f_equal.
  rewrite <- (length_fmap fst), Hkeys. by rewrite length_seq.
Qed.

(** C2 (amended).  The feature vector of an extraction is, in this order:
    the sizes of the improving, advantageous, losing and disadvantageous
    sets, [max_Q], [max_P], [max_N], [root_Q], [root_P], [root_N], the
    branching factor, the widths at depths 1 to 7 (0 where the subtree is
    shallower), the mean, standard deviation and maximum of the widths by
    depth padded with zeros to at least eight entries, and the height. *)
Theorem feature_transform_layout (np_mean np_std : list Q → Q) G uci root d :
  get_subtree_data G uci root = Some d →
  padded_widths (width d) =
    (λ k, Qnat (width_get (width d) k)) <$> seq 0 (length (width d) `max` 8) ∧
  feature_transform np_mean np_std d =
    [Qnat (length (improving_moves d)); Qnat (length (adv_moves d));
     Qnat (length (losing_moves d)); Qnat (length (disadv_moves d));
     max_Q d; max_P d; inject_Z (max_N d);
     root_Q d; root_P d; root_N d;
     bf d;
     Qnat (width_get (width d) 1); Qnat (width_get (width d) 2);
     Qnat (width_get (width d) 3); Qnat (width_get (width d) 4);
     Qnat (width_get (width d) 5); Qnat (width_get (width d) 6);
     Qnat (width_get (width d) 7);
     np_mean (padded_widths (width d)); np_std (padded_widths (width d));
     np_max (padded_widths (width d));
     inject_Z (height d)].
Proof.
  intros Hd. apply extraction_width_keys in Hd.
  pose proof (padded_widths_by_depth _ Hd) as Hpad. split; [done|].
  unfold feature_transform. simpl.
  assert (take 7 (drop 1 (padded_widths (width d))) =
          (λ k, Qnat (width_get (width d) k)) <$> seq 1 7) as ->; [|done].
  rewrite Hpad.
  replace (length (width d) `max` 8)%nat
    with (8 + (length (width d) - 8))%nat by lia.
  rewrite seq_app, fmap_app. simpl. done.
Qed.

Lemma feature_transform_layout_witness :
  ∃ d, get_subtree_data Samples.two_moves "e2e4" 0 = Some d ∧
       feature_transform Samples.mean_q Samples.std_q d =
         [Qnat (length (improving_moves d)); Qnat (length (adv_moves d));
          Qnat (length (losing_moves d)); Qnat (length (disadv_moves d));
          max_Q d; max_P d; inject_Z (max_N d);
          root_Q d; root_P d; root_N d;
          bf d;
          Qnat (width_get (width d) 1); Qnat (width_get (width d) 2);
          Qnat (width_get (width d) 3); Qnat (width_get (width d) 4);
          Qnat (width_get (width d) 5); Qnat (width_get (width d) 6);
          Qnat (width_get (width d) 7);
          Samples.mean_q (padded_widths (width d));
          Samples.std_q (padded_widths (width d));
          np_max (padded_widths (width d));
          inject_Z (height d)].
Proof.
  eexists. split; [vm_compute; reflexivity|].
  apply (feature_transform_layout Samples.mean_q Samples.std_q
           Samples.two_moves "e2e4" 0).
  reflexivity.
Defined.

(** On the sample tree position 4 holds [max_Q = 0.3], not [max_N = 50]. *)
Lemma feature_transform_order_counterexample :
  ¬ (∀ d, get_subtree_data Samples.two_moves "e2e4" 0 = Some d →
          spec_maxima_order (feature_transform Samples.mean_q Samples.std_q d) d).
Proof.
  intros Hclaim.
  destruct (get_subtree_data Samples.two_moves "e2e4" 0) as [d|] eqn:Hd;
    [|vm_compute in Hd; discriminate].
  destruct (Hclaim d eq_refl) as [H4 _].
  vm_compute in Hd. inversion Hd; subst d. vm_compute in H4. discriminate H4.
Qed.

(** ** Normalization *)

Lemma normalize_entries_lookup row : ∀ mean std j x m s,
  row !! j = Some x → mean !! j = Some m → std !! j = Some s →
  normalize_entries row mean std !! j = Some (normalize_entry x m s).
Proof.
  induction row as [|x0 row IH]; intros [|m0 mean] [|s0 std] [|j] x m s;
    simpl; intros Hx Hm Hs; simplify_eq; try done.
  by apply IH.
Qed.

Lemma normalize_entries_length row : ∀ mean std,
  length row = length mean → length mean = length std →
  length (normalize_entries row mean std) = length row.
Proof.
  induction row as [|x0 row IH]; intros [|m0 mean] [|s0 std]; simpl;
    intros H1 H2; try done.
  f_equal. apply IH; lia.
Qed.

(** C5 (amended).  Normalization subtracts the mean in every column and
    divides by the standard deviation in the columns where it is positive;
    a column with [std = 0] is centred but not scaled.  With mean [1,1],
    std [0,2] and input row [5,5] the output row is [4, 2]. *)
Theorem normalization_centres_then_scales :
  (∀ mean std row,
     length row = length mean → length mean = length std →
     ∃ out, normalize_row mean std row = Some out ∧
            length out = length row ∧
            ∀ j x m s,
              row !! j = Some x → mean !! j = Some m → std !! j = Some s →
              ∃ y, out !! j = Some y ∧
                   ((0 < s)%Q → (y == (x - m) / s)%Q) ∧
                   (¬ (0 < s)%Q → (y == x - m)%Q)) ∧
  (∃ x y, normalize [1; 1]%Q [0; 2]%Q [[5; 5]%Q] = Some [[x; y]] ∧
          (x == 4)%Q ∧ (y == 2)%Q).
Proof.
  split.
  - intros mean std row H1 H2. exists (normalize_entries row mean std).
    unfold normalize_row. rewrite decide_True by done.
    split; [done|]. split; [by apply normalize_entries_length|].
    intros j x m s Hx Hm Hs. exists (normalize_entry x m s).
    split; [by apply normalize_entries_lookup|].
    unfold normalize_entry. destruct (Qltb 0 s) eqn:Hlt.
    + apply Qltb_lt in Hlt. split; [reflexivity | tauto].
    + apply Qltb_ge in Hlt. split; [|reflexivity].
      intros Hpos. exfalso. by apply (Qlt_not_le 0 s).
  - eexists _, _. split; [vm_compute; reflexivity|]. split; reflexivity.
Qed.

Lemma normalization_centres_then_scales_witness :
  length [5; 5]%Q = length [1; 1]%Q ∧ length [1; 1]%Q = length [0; 2]%Q ∧
  ∃ out, normalize_row [1; 1]%Q [0; 2]%Q [5; 5]%Q = Some out ∧
         length out = 2%nat.
Proof.
  split; [reflexivity|]. split; [reflexivity|].
  destruct (proj1 normalization_centres_then_scales [1; 1]%Q [0; 2]%Q [5; 5]%Q
              eq_refl eq_refl) as (out & Hout & Hlen & _).
  exists out. split; [exact Hout | exact Hlen].
Defined.

(** The code yields 4 in the first column: the mean is subtracted there
    too. *)
Lemma normalization_scenario_counterexample : ¬ spec_normalization_scenario.
Proof.
  intros (x & y & Hn & Hx & _). vm_compute in Hn. inversion Hn; subst x y.
  vm_compute in Hx. discriminate Hx.
Qed.

(** ** What one tree contributes *)

Lemma get_data_unfold G uci :
  get_data G uci =
  match get_subtree_data G uci 0 with
  | None => None
  | Some p =>
      match
        match move_node p with
        | None => Some None
        | Some m => Some <$> get_subtree_data G uci m
        end
      with
      | None => None
      | Some md =>
          match
            mapM (mapM (get_subtree_data G uci))
              [improving_moves p; adv_moves p; losing_moves p; disadv_moves p]
          with
          | None => None
          | Some subsets => Some (TreeData p md subsets)
          end
      end
  end.
Proof.
  unfold get_data. destruct (get_subtree_data G uci 0) as [p|]; [|done].
  cbn [mbind option_bind].
  destruct (match move_node p with None => _ | Some m => _ end); [|done].
  cbn [mbind option_bind]. by destruct (mapM _ _).
Qed.

Lemma get_data_Some G uci t :
  get_data G uci = Some t →
  get_subtree_data G uci 0 = Some (td_parent t) ∧
  (move_node (td_parent t) = None → td_move t = None) ∧
  Forall2 (λ ids s, mapM (get_subtree_data G uci) ids = Some s)
    [improving_moves (td_parent t); adv_moves (td_parent t);
     losing_moves (td_parent t); disadv_moves (td_parent t)]
    (td_subsets t).
Proof.
  rewrite get_data_unfold.
  destruct (get_subtree_data G uci 0) as [p|]; [|done].
  remember [improving_moves p; adv_moves p; losing_moves p; disadv_moves p]
    as sets eqn:Hsets.
  destruct (mapM (mapM (get_subtree_data G uci)) sets) as [subsets|] eqn:Hsub.
  - apply mapM_Some in Hsub.
    destruct (move_node p) as [m|] eqn:Hm.
    + destruct (get_subtree_data G uci m) as [md|]; [|done].
      intros Ht. injection Ht as <-. subst sets. simpl. rewrite Hm. done.
    + intros Ht. injection Ht as <-. subst sets. simpl. done.
  - by destruct (match move_node p with None => _ | Some m => _ end).
Qed.

Section Aggregator.

Variables np_mean np_std : list Q → Q.

Lemma feature_transform_length d :
  length (feature_transform np_mean np_std d) = 22%nat.
Proof.
  unfold feature_transform. simpl. rewrite !length_app. simpl.
  rewrite length_take, length_drop. unfold padded_widths.
  rewrite length_app, length_replicate. lia.
Qed.

Lemma subset_features_length s :
  length (subset_features np_mean np_std s) = 4%nat.
Proof. by destruct s. Qed.

Lemma subset_features_rows s :
  Forall (λ v, length v = 22%nat) (subset_features np_mean np_std s).
Proof.
  destruct s as [|d s]; [by repeat constructor|].
  unfold subset_features, columns.
  change (map (feature_transform np_mean np_std) (d :: s))
    with (feature_transform np_mean np_std d ::
          map (feature_transform np_mean np_std) s).
  cbv zeta. repeat constructor;
    by rewrite !length_map, length_seq, feature_transform_length.
Qed.

Lemma subsets_lookup (subsets : list (list subtree_data)) : ∀ k s a,
  subsets !! k = Some s → (a < 4)%nat →
  (subsets ≫= subset_features np_mean np_std) !! (4 * k + a)%nat =
  subset_features np_mean np_std s !! a.
Proof.
  induction subsets as [|s0 subsets IH]; intros [|k] s a Hk Ha;
    simplify_eq; csimpl.
  - simpl in Hk. simplify_eq.
    rewrite lookup_app_l by (rewrite subset_features_length; lia). done.
  - simpl in Hk. rewrite lookup_app_r by (rewrite subset_features_length; lia).
    rewrite subset_features_length.
    match goal with
    | |- context [(?n - 4)%nat] =>
        replace (n - 4)%nat with (4 * k + a)%nat by lia
    end.
    by apply IH.
Qed.

Lemma tree_feature_list_absent t :
  td_move t = None → tree_feature_list np_mean np_std t !! 1%nat = Some defaults.
Proof. unfold tree_feature_list. by intros ->. Qed.

Lemma tree_feature_list_rows t :
  Forall (λ v, length v = 22%nat) (tree_feature_list np_mean np_std t) ∧
  length (tree_feature_list np_mean np_std t) = (2 + 4 * length (td_subsets t))%nat.
Proof.
  unfold tree_feature_list. split.
  - apply Forall_app. split.
    + repeat constructor; [apply feature_transform_length|].
      destruct (td_move t); [apply feature_transform_length | done].
    + induction (td_subsets t) as [|s l IH]; csimpl; [constructor|].
      apply Forall_app. split; [apply subset_features_rows | done].
  - rewrite length_app. simpl. do 2 f_equal.
    induction (td_subsets t) as [|s l IH]; csimpl; [done|].
    rewrite length_app, subset_features_length, IH. lia.
Qed.

Lemma concat_length_uniform (n : nat) (l : list (list Q)) :
  Forall (λ v, length v = n) l → length (concat l) = (n * length l)%nat.
Proof.
  induction 1 as [|v l Hv _ IH]; simpl; [lia|].
  rewrite length_app, IH, Hv. lia.
Qed.

(** A tree that is read and processed contributes exactly 398 entries. *)
Lemma tree_features_length G uci f :
  tree_features np_mean np_std G uci = Some f → length f = 398%nat.
Proof.
  unfold tree_features. intros Hf.
  destruct (get_data G uci) as [t|] eqn:Ht; [|done].
  cbn [mbind option_bind] in Hf.
  apply (inj Some) in Hf. subst f.
  destruct (tree_feature_list_rows t) as [Hrows Hlen].
  rewrite length_app, (concat_length_uniform 22) by done. rewrite Hlen.
  apply get_data_Some in Ht as (_ & _ & Hsub).
  apply Forall2_length in Hsub. simpl in Hsub. rewrite <- Hsub. done.
Qed.

(** Every tree adds 398 entries to the row or one report to the log. *)
Lemma move_run_length m slots : ∀ st,
  (length (foldl (tree_step np_mean np_std m) st slots).1 +
   398 * length (foldl (tree_step np_mean np_std m) st slots).2 =
   length st.1 + 398 * length st.2 + 398 * length slots)%nat.
Proof.
  induction slots as [|wt slots IH]; intros st; simpl; [lia|].
  rewrite IH. unfold tree_step.
  destruct (md_tree m wt.1 wt.2 ≫= _) as [f|] eqn:Hf; simpl.
  - destruct (md_tree m wt.1 wt.2) as [G|]; [|done]. simpl in Hf.
    apply tree_features_length in Hf. rewrite length_app. lia.
  - rewrite length_app. simpl. lia.
Qed.

Lemma move_row_length m :
  (length (move_row np_mean np_std m) +
   398 * length (bad_trees np_mean np_std m) = 3980)%nat.
Proof.
  unfold move_row, bad_trees, move_run. rewrite move_run_length. done.
Qed.

End Aggregator.

(** ** The sentinel vector *)

(** C3 (amended).  When the move of interest is absent from a tree, the slot
    of its subtree holds the blank vector, and an empty subset of moves
    yields the blank vector four times; the blank vector has 22 fields, all
    zero except the [max_Q] slot (4) and the [root_Q] slot (7), which hold
    -1. *)
Theorem blank_features_when_absent_or_empty (np_mean np_std : list Q → Q)
    G uci t :
  get_data G uci = Some t →
  defaults = [0; 0; 0; 0; -1; 0; 0; -1; 0; 0; 0;
              0; 0; 0; 0; 0; 0; 0; 0; 0; 0; 0]%Q ∧
  (move_node (td_parent t) = None →
   tree_feature_list np_mean np_std t !! 1%nat = Some defaults) ∧
  (∀ k a,
     [improving_moves (td_parent t); adv_moves (td_parent t);
      losing_moves (td_parent t); disadv_moves (td_parent t)] !! k = Some [] →
     (a < 4)%nat →
     tree_feature_list np_mean np_std t !! (2 + 4 * k + a)%nat = Some defaults).
Proof.
  intros Ht. apply get_data_Some in Ht as (_ & Habs & Hsub).
  split; [reflexivity|]. split.
  - intros Hm. by apply tree_feature_list_absent, Habs.
  - intros k a Hk Ha.
    destruct (Forall2_lookup_l _ _ _ _ _ Hsub Hk) as (s & Hs & Hmap).
    assert (s = []) as -> by (by inversion Hmap).
    unfold tree_feature_list.
    rewrite lookup_app_r by (cbn [length]; lia). cbn [length].
    replace (2 + 4 * k + a - 2)%nat with (4 * k + a)%nat by lia.
    rewrite (subsets_lookup _ _ _ k [] a) by done.
    destruct a as [|[|[|[|a]]]]; try done; lia.
Qed.

Lemma blank_features_when_absent_or_empty_witness :
  ∃ t, get_data Samples.one_move "e2e4" = Some t ∧
       tree_feature_list Samples.mean_q Samples.std_q t !! 1%nat = Some defaults ∧
       tree_feature_list Samples.mean_q Samples.std_q t !! (2 + 4 * 2 + 0)%nat =
         Some defaults.
Proof.
  eexists. split; [vm_compute; reflexivity|].
  destruct (blank_features_when_absent_or_empty Samples.mean_q Samples.std_q
              Samples.one_move "e2e4" _ eq_refl) as (_ & Hmove & Hsubset).
  split; [apply Hmove; reflexivity | apply (Hsubset 2%nat 0%nat); [reflexivity | lia]].
Defined.

(** The move e2e4 is absent from the sample tree; the slot of its subtree
    holds 0, not -1, at the branching-factor position. *)
Lemma spec_sentinel_counterexample :
  ¬ emits_spec_sentinel Samples.mean_q Samples.std_q Samples.one_move "e2e4".
Proof.
  intros Hclaim.
  destruct (get_data Samples.one_move "e2e4") as [t|] eqn:Ht;
    [|vm_compute in Ht; discriminate].
  pose proof (get_data_Some _ _ _ Ht) as (Hp & Habs & _).
  assert (move_node <$> get_subtree_data Samples.one_move "e2e4" 0 = Some None)
    as Hnone by (vm_compute; reflexivity).
  rewrite Hp in Hnone. simpl in Hnone. apply (inj Some) in Hnone.
  destruct (Hclaim t Ht Hnone) as (v & Hv & Hall).
  rewrite tree_feature_list_absent in Hv by auto. apply (inj Some) in Hv. subst v.
  assert (0 == -1)%Q as Hbf
    by (apply (Forall2_lookup_lr _ _ _ 10 _ _ Hall); reflexivity).
  discriminate Hbf.
Qed.

(** ** A tree file that does not parse *)

(** C4.  On a move folder whose first tree file is missing, the missing
    combination is reported, but nothing is written in its place: the row
    has 3582 entries instead of 3980, and normalizing it against statistics
    of length 3980 fails. *)
Theorem bad_tree_shortens_row :
  bad_trees Samples.mean_q Samples.std_q Samples.one_missing = [(0, 1)]%nat ∧
  length (move_row Samples.mean_q Samples.std_q Samples.one_missing) = 3582%nat ∧
  parse_trees Samples.mean_q Samples.std_q [Samples.one_missing]
    (replicate 3980 0%Q) (replicate 3980 1%Q) = None.
Proof. vm_compute. done. Qed.

(** With every tree file present the row is complete and is normalized. *)
Example all_trees_row :
  bad_trees Samples.mean_q Samples.std_q Samples.all_trees = [] ∧
  length (move_row Samples.mean_q Samples.std_q Samples.all_trees) = 3980%nat ∧
  length <$> parse_trees Samples.mean_q Samples.std_q [Samples.all_trees]
    (replicate 3980 0%Q) (replicate 3980 1%Q) = Some 1%nat.
Proof. vm_compute. done. Qed.

(** ** Sample points of the indexer *)

Lemma index_flat_bijection_witness :
  Indexer.valid (Indexer.Args 1 4 21 (Some 5) 3) ∧
  0 <= Indexer.offset (Indexer.Args 1 4 21 (Some 5) 3) < 3980 ∧
  ∃ a, Indexer.valid a ∧ Indexer.offset a = 3979.
Proof.
  assert (Indexer.valid (Indexer.Args 1 4 21 (Some 5) 3)) as Hv
    by (apply IndexerFacts.valid_validb; reflexivity).
  destruct IndexerFacts.index_flat_bijection as (Hrange & _ & Hsurj).
  split; [exact Hv|]. split; [exact (Hrange _ Hv)|].
  apply Hsurj. lia.
Defined.

(** * Further properties of the extraction *)

(** ** When the extraction raises *)

Lemma nodes_successors G i nd :
  nodes G i = Some nd → successors G i = Some (adj G i).
Proof.
  unfold nodes, adj, successors. destruct (g_map G !! i); simpl; [done|discriminate].
Qed.

Lemma loop_complete G uci rq succs : ∀ st,
  is_Some (loop G uci rq st succs) → Forall (complete G) succs.
Proof.
  intros st [st' Hst]. by apply loop_Some in Hst as [? _].
Qed.

Lemma get_subtree_data_is_Some G uci root :
  is_Some (get_subtree_data G uci root) ↔
  (∃ rt, nodes G root = Some rt ∧ is_Some (attr_Q rt) ∧ is_Some (attr_N rt)) ∧
  Forall (complete G) (adj G root).
Proof.
  split.
  - unfold get_subtree_data. intros [d Hd].
    destruct (nodes G root) as [rt|] eqn:Hrt; [|done]. simpl in Hd.
    rewrite (nodes_successors _ _ _ Hrt) in Hd.
    destruct (attr_Q rt) as [rq|] eqn:Hrq; [|done]. simpl in Hd.
    destruct (attr_N rt) as [rn|] eqn:Hrn; [|done]. simpl in Hd.
    destruct (loop G uci rq loop_init (adj G root)) as [st|] eqn:Hloop; [|done].
    split; [exists rt; by rewrite Hrq, Hrn|].
    apply (loop_complete G uci rq _ loop_init). by rewrite Hloop.
  - intros [(rt & Hrt & [rq Hrq] & [rn Hrn]) Hc].
    eapply get_subtree_data_total; eauto using nodes_successors.
Qed.

(** X1.  [get_subtree_data] returns exactly when the root is a node that
    carries [Q] and [N] and every successor of the root carries [N], [Q],
    [P] and [move]; otherwise it raises. *)
Theorem extraction_succeeds_iff G uci root :
  is_Some (get_subtree_data G uci root) ↔
  (∃ rt, nodes G root = Some rt ∧ is_Some (attr_Q rt) ∧ is_Some (attr_N rt)) ∧
  Forall (complete G) (adj G root).
Proof. apply get_subtree_data_is_Some. Qed.

(** ** How the successors are classified *)

Lemma Qltb_neg_lt a b : Qltb 0 (a - - b) = true ↔ (- b < a)%Q.
Proof. rewrite Qltb_lt. symmetry. apply Qlt_minus_iff. Qed.

Lemma Qltb_neg_ge a b : Qltb 0 (a - - b) = false ↔ (a <= - b)%Q.
Proof.
  rewrite Qltb_ge. split; intros H.
  - apply Qnot_lt_le. intros Hlt. apply Qlt_minus_iff in Hlt.
    by apply (Qlt_not_le _ _ Hlt).
  - apply Qnot_lt_le. intros Hlt. apply (Qlt_not_le (- b) a); [|done].
    by apply Qlt_minus_iff.
Qed.

(** X2.  A successor of the root that does not carry the move of interest
    is improving when its Q exceeds the negated Q of the root and losing
    otherwise; it is advantageous when its Q is positive and
    disadvantageous otherwise.  Nothing else is in the four sets. *)
Theorem four_sets_classified G uci root d succs :
  get_subtree_data G uci root = Some d →
  successors G root = Some succs →
  ∀ i,
    (i ∈ improving_moves d ↔
       i ∈ succs ∧ ¬ has_move G uci i ∧ (- node_Q G root < node_Q G i)%Q) ∧
    (i ∈ losing_moves d ↔
       i ∈ succs ∧ ¬ has_move G uci i ∧ (node_Q G i <= - node_Q G root)%Q) ∧
    (i ∈ adv_moves d ↔
       i ∈ succs ∧ ¬ has_move G uci i ∧ (0 < node_Q G i)%Q) ∧
    (i ∈ disadv_moves d ↔
       i ∈ succs ∧ ¬ has_move G uci i ∧ (node_Q G i <= 0)%Q).
Proof.
  intros Hd Hs i.
  apply get_subtree_data_Some in Hd
    as (succs' & Hs' & _ & E1 & E2 & E3 & E4 & _ & _ & Hrq & _).
  assert (succs' = succs) as -> by congruence.
  assert (node_Q G root = root_Q d) as -> by (unfold node_Q; by rewrite Hrq).
  rewrite E1, E2, E3, E4, !list_elem_of_filter.
  rewrite Qltb_neg_lt, Qltb_neg_ge, Qltb_lt, Qltb_ge. tauto.
Qed.

Lemma four_sets_classified_witness :
  ∃ d, get_subtree_data Samples.two_moves "e2e4" 0 = Some d ∧
       successors Samples.two_moves 0 = Some [1; 2] ∧
       (2 ∈ losing_moves d ↔
          2 ∈ [1; 2] ∧ ¬ has_move Samples.two_moves "e2e4" 2 ∧
          (node_Q Samples.two_moves 2 <= - node_Q Samples.two_moves 0)%Q).
Proof.
  eexists. split; [vm_compute; reflexivity|]. split; [reflexivity|].
  apply (four_sets_classified Samples.two_moves "e2e4" 0 _ [1; 2]); reflexivity.
Defined.

Lemma filter_split_length {A} (P : A → Prop)
    `{!∀ x, Decision (P x)} (b : A → bool) (l : list A) :
  (length (filter (λ x, P x ∧ b x = true) l) +
   length (filter (λ x, P x ∧ b x = false) l) = length (filter P l))%nat.
Proof.
  induction l as [|x l IH]; [done|].
  rewrite !filter_cons.
  destruct (decide (P x)), (b x); repeat case_decide; simpl;
    try lia; exfalso; intuition congruence.
Qed.

(** X3.  The four sets keep the iteration order of the successors, and the
    two pairs have the same total size: the number of successors that do
    not carry the move of interest. *)
Theorem four_sets_ordered G uci root d succs :
  get_subtree_data G uci root = Some d →
  successors G root = Some succs →
  improving_moves d `sublist_of` succs ∧ losing_moves d `sublist_of` succs ∧
  adv_moves d `sublist_of` succs ∧ disadv_moves d `sublist_of` succs ∧
  (length (improving_moves d) + length (losing_moves d) =
   length (filter (λ i, ¬ has_move G uci i) succs))%nat ∧
  (length (adv_moves d) + length (disadv_moves d) =
   length (filter (λ i, ¬ has_move G uci i) succs))%nat.
Proof.
  intros Hd Hs.
  apply get_subtree_data_Some in Hd
    as (succs' & Hs' & _ & E1 & E2 & E3 & E4 & _).
  assert (succs' = succs) as -> by congruence.
  rewrite E1, E2, E3, E4.
  split_and!; try apply sublist_filter.
  - apply (filter_split_length _ (λ i, Qltb 0 (node_Q G i - - root_Q d))).
  - apply (filter_split_length _ (λ i, Qltb 0 (node_Q G i))).
Qed.

Lemma four_sets_ordered_witness :
  ∃ d, get_subtree_data Samples.twice_e2e4 "e2e4" 0 = Some d ∧
       successors Samples.twice_e2e4 0 = Some [1; 2; 3] ∧
       (length (improving_moves d) + length (losing_moves d))%nat =
        length (filter (λ i, ¬ has_move Samples.twice_e2e4 "e2e4" i) [1; 2; 3]).
Proof.
  eexists. split; [vm_compute; reflexivity|]. split; [reflexivity|].
  apply (four_sets_ordered Samples.twice_e2e4 "e2e4" 0 _ [1; 2; 3]); reflexivity.
Defined.

(** ** The running maxima *)

Lemma loop_body_maxima G uci rq st i st' :
  loop_body G uci rq st i = Some st' →
  ls_max_P st' = running_max (ls_max_P st) (node_P G i) ∧
  ls_max_N st' = running_max_Z (ls_max_N st) (node_N G i).
Proof.
  unfold loop_body, node_P, node_N.
  destruct (nodes G i) as [[[N|] [q|] [P|] [mv|]]|]; simpl; try discriminate.
  destruct (decide (mv = uci)); intros Hst; apply (inj Some) in Hst;
    subst st'; done.
Qed.

Lemma loop_maxima G uci rq succs : ∀ st st',
  loop G uci rq st succs = Some st' →
  ls_max_P st' = foldl running_max (ls_max_P st) (node_P G <$> succs) ∧
  ls_max_N st' = foldl running_max_Z (ls_max_N st) (node_N G <$> succs).
Proof.
  induction succs as [|i succs IH]; intros st st' Hloop; simpl in Hloop.
  - by simplify_eq.
  - destruct (loop_body G uci rq st i) as [st1|] eqn:Hbody; [|done].
    simpl in Hloop. apply loop_body_maxima in Hbody as [E1 E2].
    apply IH in Hloop as [F1 F2]. csimpl. by rewrite F1, F2, E1, E2.
Qed.

Lemma running_max_bounds l : ∀ m,
  (m <= foldl running_max m l)%Q ∧
  Forall (λ q, (q <= foldl running_max m l)%Q) l ∧
  (foldl running_max m l = m ∨ foldl running_max m l ∈ l).
Proof.
  induction l as [|q l IH]; intros m; simpl.
  - split; [apply Qle_refl|]. split; [constructor | by left].
  - destruct (IH (running_max m q)) as (Hle & Hall & Hin).
    assert ((m <= running_max m q)%Q ∧ (q <= running_max m q)%Q) as [Hm Hq].
    { unfold running_max. destruct (Qltb m q) eqn:Hlt.
      - apply Qltb_lt in Hlt. split; [by apply Qlt_le_weak | apply Qle_refl].
      - apply Qltb_ge in Hlt. split; [apply Qle_refl | done]. }
    split; [by eapply Qle_trans|]. split.
    + constructor; [by eapply Qle_trans | done].
    + destruct Hin as [->|Hin]; [|right; by apply elem_of_cons; right].
      unfold running_max. destruct (Qltb m q); [right; by apply elem_of_cons; left | by left].
Qed.

Lemma running_max_Z_bounds l : ∀ m,
  m <= foldl running_max_Z m l ∧
  Forall (λ n, n <= foldl running_max_Z m l) l ∧
  (foldl running_max_Z m l = m ∨ foldl running_max_Z m l ∈ l).
Proof.
  induction l as [|n l IH]; intros m; simpl.
  - split; [lia|]. split; [constructor | by left].
  - destruct (IH (running_max_Z m n)) as (Hle & Hall & Hin).
    assert (m <= running_max_Z m n ∧ n <= running_max_Z m n) as [Hm Hn]
      by (unfold running_max_Z; destruct (Z.ltb_spec m n); lia).
    split; [lia|]. split.
    + constructor; [lia | done].
    + destruct Hin as [->|Hin]; [|right; by apply elem_of_cons; right].
      unfold running_max_Z. destruct (m <? n); [right; by apply elem_of_cons; left | by left].
Qed.

Lemma get_subtree_data_maxima G uci root d succs :
  get_subtree_data G uci root = Some d →
  successors G root = Some succs →
  max_Q d = foldl running_max (-1)%Q (node_Q G <$> succs) ∧
  max_P d = foldl running_max 0%Q (node_P G <$> succs) ∧
  max_N d = foldl running_max_Z 0 (node_N G <$> succs).
Proof.
  unfold get_subtree_data. intros Hd Hs.
  destruct (nodes G root) as [rt|]; [|done]. simpl in Hd.
  destruct (attr_Q rt) as [rq|]; [|done]. simpl in Hd.
  destruct (attr_N rt) as [rn|]; [|done]. simpl in Hd.
  rewrite Hs in Hd. simpl in Hd.
  destruct (loop G uci rq loop_init succs) as [st|] eqn:Hloop; [|done].
  simpl in Hd.
  pose proof (loop_maxima _ _ _ _ _ _ Hloop) as [EP EN].
  apply loop_Some in Hloop as (_ & _ & _ & _ & _ & _ & EQ).
  destruct (match ls_move_node st with Some m => _ | None => _ end) as [b|];
    [|done].
  simpl in Hd. apply (inj Some) in Hd. subst d. simpl. done.
Qed.

(** X4.  The three maxima run over every successor of the root, the
    move-of-interest node included, and start from -1 (Q), 0 (P) and 0 (N):
    each is at least its start and at least the value of every successor,
    and is its start or the value of some successor. *)
Theorem maxima_over_successors G uci root d succs :
  get_subtree_data G uci root = Some d →
  successors G root = Some succs →
  ((-1 <= max_Q d)%Q ∧ (∀ i, i ∈ succs → (node_Q G i <= max_Q d)%Q) ∧
   (max_Q d = (-1)%Q ∨ ∃ i, i ∈ succs ∧ max_Q d = node_Q G i)) ∧
  ((0 <= max_P d)%Q ∧ (∀ i, i ∈ succs → (node_P G i <= max_P d)%Q) ∧
   (max_P d = 0%Q ∨ ∃ i, i ∈ succs ∧ max_P d = node_P G i)) ∧
  (0 <= max_N d ∧ (∀ i, i ∈ succs → node_N G i <= max_N d) ∧
   (max_N d = 0 ∨ ∃ i, i ∈ succs ∧ max_N d = node_N G i)).
Proof.
  intros Hd Hs.
  destruct (get_subtree_data_maxima _ _ _ _ _ Hd Hs) as (-> & -> & ->).
  split_and!.
  - apply running_max_bounds.
  - intros i Hi.
    destruct (running_max_bounds (node_Q G <$> succs) (-1)%Q) as (_ & Hall & _).
    rewrite Forall_fmap, Forall_forall in Hall. by apply Hall.
  - destruct (running_max_bounds (node_Q G <$> succs) (-1)%Q) as (_ & _ & [?|Hin]);
      [by left|right].
    apply list_elem_of_fmap in Hin as (i & ? & ?). by exists i.
  - apply running_max_bounds.
  - intros i Hi.
    destruct (running_max_bounds (node_P G <$> succs) 0%Q) as (_ & Hall & _).
    rewrite Forall_fmap, Forall_forall in Hall. by apply Hall.
  - destruct (running_max_bounds (node_P G <$> succs) 0%Q) as (_ & _ & [?|Hin]);
      [by left|right].
    apply list_elem_of_fmap in Hin as (i & ? & ?). by exists i.
  - apply running_max_Z_bounds.
  - intros i Hi.
    destruct (running_max_Z_bounds (node_N G <$> succs) 0) as (_ & Hall & _).
    rewrite Forall_fmap, Forall_forall in Hall. by apply Hall.
  - destruct (running_max_Z_bounds (node_N G <$> succs) 0) as (_ & _ & [?|Hin]);
      [by left|right].
    apply list_elem_of_fmap in Hin as (i & ? & ?). by exists i.
Qed.

Lemma maxima_over_successors_witness :
  ∃ d, get_subtree_data Samples.two_moves "e2e4" 0 = Some d ∧
       successors Samples.two_moves 0 = Some [1; 2] ∧
       (-1 <= max_Q d)%Q ∧ 0 <= max_N d.
Proof.
  eexists. split; [vm_compute; reflexivity|]. split; [reflexivity|].
  destruct (maxima_over_successors Samples.two_moves "e2e4" 0 _ [1; 2]
              eq_refl eq_refl) as ((HQ & _) & _ & (HN & _)).
  split; [exact HQ | exact HN].
Defined.

(** ** The move of interest, found or not *)

(** X5.  The move of interest is recorded exactly when some successor of the
    root carries it; the recorded node is such a successor; and when none
    does, the best-move flag is false. *)
Theorem move_node_found_iff G uci root d succs :
  get_subtree_data G uci root = Some d →
  successors G root = Some succs →
  (is_Some (move_node d) ↔ ∃ i, i ∈ succs ∧ has_move G uci i) ∧
  (∀ m, move_node d = Some m → m ∈ succs ∧ has_move G uci m) ∧
  (move_node d = None → move_is_best d = false).
Proof.
  intros Hd Hs.
  apply get_subtree_data_Some in Hd
    as (succs' & Hs' & _ & _ & _ & _ & _ & Hlast & _ & _ & Hbest & _).
  assert (succs' = succs) as -> by congruence.
  split_and!.
  - rewrite Hlast. split.
    + intros [m Hm]. apply last_filter_elem in Hm. by exists m.
    + intros (i & Hi & Hmv).
      destruct (last (filter (has_move G uci) succs)) as [m|] eqn:Hl; [by eauto|].
      apply last_None in Hl.
      assert (i ∈ filter (has_move G uci) succs) as Hin
        by (by apply list_elem_of_filter).
      rewrite Hl in Hin. by apply elem_of_nil in Hin.
  - intros m Hm. rewrite Hlast in Hm. by apply last_filter_elem in Hm.
  - intros Hnone. by rewrite Hbest, Hnone.
Qed.

Lemma move_node_found_iff_witness :
  ∃ d, get_subtree_data Samples.one_move "e2e4" 0 = Some d ∧
       successors Samples.one_move 0 = Some [1] ∧
       (move_node d = None → move_is_best d = false).
Proof.
  eexists. split; [vm_compute; reflexivity|]. split; [reflexivity|].
  apply (move_node_found_iff Samples.one_move "e2e4" 0 _ [1]); reflexivity.
Defined.

(** ** A root without successors *)

Lemma shortest_path_length_leaf G root :
  adj G root = [] → shortest_path_length G root = [(root, 0%nat)].
Proof.
  intros Hadj. unfold shortest_path_length. simpl. rewrite Hadj. simpl.
  by destruct (number_of_edges G).
Qed.

(** X6.  On a root without successors the extraction still returns: the four
    sets are empty, no move is recorded, the maxima keep their start values
    -1, 0, 0, the branching factor is the sentinel -1, the width profile is
    {0: 1} and the height is 0; the feature vector follows. *)
Theorem leaf_root_extraction (np_mean np_std : list Q → Q) G uci root d :
  get_subtree_data G uci root = Some d →
  successors G root = Some [] →
  (improving_moves d = [] ∧ adv_moves d = [] ∧
   losing_moves d = [] ∧ disadv_moves d = [] ∧
   move_node d = None ∧ move_is_best d = false ∧
   max_Q d = (-1)%Q ∧ max_P d = 0%Q ∧ max_N d = 0 ∧
   bf d = (-1)%Q ∧ width d = [(0, 1)]%nat ∧ height d = 0) ∧
  feature_transform np_mean np_std d =
    [0; 0; 0; 0; -1; 0; 0; root_Q d; root_P d; root_N d; -1;
     0; 0; 0; 0; 0; 0; 0;
     np_mean [1; 0; 0; 0; 0; 0; 0; 0]; np_std [1; 0; 0; 0; 0; 0; 0; 0];
     1; 0]%Q.
Proof.
  intros Hd Hs.
  assert (adj G root = []) as Hadj by (unfold adj; by rewrite Hs).
  destruct (get_subtree_data_maxima _ _ _ _ _ Hd Hs) as (HQ & HP & HN).
  apply get_subtree_data_Some in Hd
    as (succs' & Hs' & _ & E1 & E2 & E3 & E4 & E5 & _ & _ & E6 & E7 & E8 & E9).
  assert (succs' = []) as -> by congruence.
  rewrite shortest_path_length_leaf in E8 by done.
  assert (bf d = (-1)%Q) as Hbf.
  { rewrite E7. unfold branching_factor, descendants.
    rewrite shortest_path_length_leaf by done. simpl.
    rewrite filter_cons, decide_False by tauto. done. }
  assert (height d = 0) as Hh by (by rewrite E9, E8).
  assert (move_is_best d = false) as Hb by (by rewrite E6, E5).
  split; [by split_and!|].
  unfold feature_transform. rewrite E1, E2, E3, E4, HQ, HP, HN, Hbf, E8, Hh.
  reflexivity.
Qed.

Lemma leaf_root_extraction_witness :
  ∃ d, get_subtree_data Samples.two_moves "e2e4" 2 = Some d ∧
       successors Samples.two_moves 2 = Some [] ∧
       bf d = (-1)%Q ∧ width d = [(0, 1)]%nat ∧ height d = 0.
Proof.
  eexists. split; [vm_compute; reflexivity|]. split; [reflexivity|].
  destruct (leaf_root_extraction Samples.mean_q Samples.std_q
              Samples.two_moves "e2e4" 2 _ eq_refl eq_refl) as [H _].
  destruct H as (_ & _ & _ & _ & _ & _ & _ & _ & _ & Hbf & Hw & Hh).
  split; [exact Hbf|]. split; [exact Hw | exact Hh].
Defined.

(** ** Height and populated depths *)

Lemma width_fold_keys_elem k (l : list (Z * nat)) : ∀ w,
  k ∈ (foldl (λ width (kv : Z * nat), width_incr kv.2 width) w l).*1 ↔
  k ∈ w.*1 ∨ ∃ v, (v, k) ∈ l.
Proof.
  induction l as [|[x n] l IH]; intros w; simpl.
  - split; [by left|]. intros [?|[v Hv]]; [done|]. by apply elem_of_nil in Hv.
  - rewrite IH, width_incr_keys. simpl. split.
    + intros [Hk|[v Hv]].
      * destruct (decide (n ∈ w.*1)); [by left|].
        apply elem_of_app in Hk as [?|Hk]; [by left|].
        apply list_elem_of_singleton in Hk as ->. right. exists x.
        apply elem_of_cons. by left.
      * right. exists v. apply elem_of_cons. by right.
    + intros [Hk|[v Hv]].
      * left. destruct (decide (n ∈ w.*1)); [done|]. apply elem_of_app. by left.
      * apply elem_of_cons in Hv as [Heq|Hv]; [|right; by exists v].
        inversion Heq; subst. left.
        destruct (decide (n ∈ w.*1)); [done|].
        apply elem_of_app. right. by apply list_elem_of_singleton.
Qed.

Lemma max_list_snoc l n : max_list (l ++ [n]) = (max_list l `max` n)%nat.
Proof. induction l as [|x l IH]; simpl; [lia|]. rewrite IH. lia. Qed.

Lemma max_list_seq n : max_list (seq 0 (S n)) = n.
Proof.
  induction n as [|n IH]; [done|].
  rewrite seq_S, max_list_snoc, IH. simpl. lia.
Qed.

Lemma filter_length_pos {A} (P : A → Prop) `{!∀ x, Decision (P x)} (l : list A) :
  (1 ≤ length (filter P l))%nat ↔ ∃ x, x ∈ l ∧ P x.
Proof.
  split.
  - destruct (filter P l) as [|x k] eqn:Hf; simpl; [lia|]. intros _.
    assert (x ∈ filter P l) as Hx by (rewrite Hf; apply elem_of_cons; by left).
    apply list_elem_of_filter in Hx. exists x. tauto.
  - intros (x & Hx & HP).
    assert (x ∈ filter P l) as Hin by (by apply list_elem_of_filter).
    destruct (filter P l); [by apply elem_of_nil in Hin | simpl; lia].
Qed.

Lemma NoDup_all_equal_length {A} (a : A) (l : list A) :
  NoDup l → (∀ x, x ∈ l → x = a) → (length l ≤ 1)%nat.
Proof.
  destruct l as [|x [|y l]]; simpl; [lia | lia|].
  intros Hnd Hall. exfalso.
  apply NoDup_cons in Hnd as [Hx _]. apply Hx.
  rewrite (Hall x), <- (Hall y); [apply elem_of_cons; by left | |];
    apply elem_of_cons; [right; apply elem_of_cons|]; by left.
Qed.

(** X7.  The height of an extraction is the largest shortest-path distance
    from the root: some reachable node lies at that distance and none lies
    farther.  The depths the width profile populates are exactly 0 up to
    the height, and depth 0 holds the root alone. *)
Theorem height_is_largest_distance G uci root d :
  get_subtree_data G uci root = Some d →
  (∃ v, distance G root v (Z.to_nat (height d))) ∧
  (∀ v n, distance G root v n → Z.of_nat n <= height d) ∧
  (∀ k, (1 ≤ width_get (width d) k)%nat ↔ Z.of_nat k <= height d) ∧
  width_get (width d) 0 = 1%nat.
Proof.
  intros Hd. pose proof (extraction_width_keys _ _ _ _ Hd) as Hkeys.
  apply get_subtree_data_Some in Hd
    as (_ & _ & _ & _ & _ & _ & _ & _ & _ & _ & _ & _ & Hw & Hh).
  destruct (shortest_path_length_spec G root) as (Hnd & Hdist & _ & _).
  set (spl := shortest_path_length G root) in *.
  assert (∀ k, k ∈ (width d).*1 ↔ ∃ v, (v, k) ∈ spl) as Hlevel.
  { intros k. rewrite Hw. unfold width_profile. rewrite width_fold_keys_elem.
    csimpl. rewrite elem_of_nil. tauto. }
  assert (∀ k, width_get (width d) k =
               length (filter (λ e : Z * nat, e.2 = k) spl)) as Hget.
  { intros k. rewrite Hw. unfold width_profile. by rewrite width_fold_get. }
  assert ((root, 0%nat) ∈ spl) as Hroot.
  { apply Hdist. split; [constructor | lia]. }
  assert (0%nat ∈ (width d).*1) as H0 by (apply Hlevel; by exists root).
  destruct (length (width d)) as [|h] eqn:Hlen.
  { rewrite Hkeys in H0. by apply elem_of_nil in H0. }
  assert (height d = Z.of_nat h) as Hheight.
  { rewrite Hh. unfold height_of. destruct (width d) as [|e w]; [done|].
    rewrite Hkeys. by rewrite max_list_seq. }
  assert (∀ k, k ∈ (width d).*1 ↔ (k ≤ h)%nat) as Hpop.
  { intros k. rewrite Hkeys, elem_of_seq. lia. }
  rewrite Hheight. split_and!.
  - destruct (proj1 (Hlevel h)) as [v Hv]; [apply Hpop; lia|].
    exists v. rewrite Nat2Z.id. by apply Hdist.
  - intros v n Hv. apply Hdist in Hv.
    assert (n ≤ h)%nat; [|lia]. apply Hpop, Hlevel. by exists v.
  - intros k. rewrite Hget, filter_length_pos.
    rewrite <- Nat2Z.inj_le, <- Hpop, Hlevel. split.
    + intros ([v n] & Hv & Hn). simpl in Hn. subst n. by exists v.
    + intros [v Hv]. by exists (v, k).
  - rewrite Hget. apply Nat.le_antisymm.
    + apply (NoDup_all_equal_length (root, 0%nat)).
      * apply NoDup_filter. by eapply NoDup_fmap_1.
      * intros [v n] Hv. apply list_elem_of_filter in Hv as [Hn Hv].
        simpl in Hn. subst n. apply Hdist in Hv as [Hp _].
        by apply path_zero in Hp as ->.
    + apply filter_length_pos. by exists (root, 0%nat).
Qed.

Lemma height_is_largest_distance_witness :
  ∃ d, get_subtree_data Samples.two_moves "e2e4" 0 = Some d ∧
       (∃ v, distance Samples.two_moves 0 v (Z.to_nat (height d))) ∧
       width_get (width d) 0 = 1%nat.
Proof.
  eexists. split; [vm_compute; reflexivity|].
  destruct (height_is_largest_distance Samples.two_moves "e2e4" 0 _ eq_refl)
    as (Hfar & _ & _ & Hroot).
  split; [exact Hfar | exact Hroot].
Defined.

(** ** The branching factor *)

Lemma filter_none {A} (P : A → Prop) `{!∀ x, Decision (P x)} (l : list A) :
  Forall (λ x, ¬ P x) l → filter P l = [].
Proof.
  induction 1 as [|x l Hx _ IH]; [done|].
  by rewrite filter_cons, decide_False.
Qed.

Lemma descendants_spec G root :
  NoDup (descendants G root) ∧
  ∀ x, x ∈ descendants G root ↔ x ≠ root ∧ reachable G root x.
Proof.
  destruct (shortest_path_length_spec G root) as (Hnd & _ & Hreach & _).
  unfold descendants. split; [by apply NoDup_filter|].
  intros x. by rewrite list_elem_of_filter, Hreach.
Qed.

Lemma branching_factor_unfold G root :
  branching_factor G root =
  match length (filter (is_leaf G) (descendants G root)) with
  | O => (-1)%Q
  | S _ =>
      (inject_Z (Z.of_nat (length (descendants G root)) - 1) /
       inject_Z (Z.of_nat (length (filter (is_leaf G) (descendants G root)))))%Q
  end.
Proof. reflexivity. Qed.

(** X8.  The branching factor of an extraction is the sentinel -1 exactly
    when no node reachable from the root, other than the root, is a leaf
    (out-degree 0 and in-degree 1); otherwise it is (number of such
    reachable nodes - 1) / (number of leaves among them), which is not
    negative. *)
Theorem branching_factor_value G uci root d :
  get_subtree_data G uci root = Some d →
  ∃ desc : list Z,
    NoDup desc ∧
    (∀ x, x ∈ desc ↔ x ≠ root ∧ reachable G root x) ∧
    (Forall (λ x, ¬ is_leaf G x) desc → bf d = (-1)%Q) ∧
    (Exists (is_leaf G) desc →
     bf d = (inject_Z (Z.of_nat (length desc) - 1) /
             inject_Z (Z.of_nat (length (filter (is_leaf G) desc))))%Q ∧
     (0 <= bf d)%Q).
Proof.
  intros Hd.
  apply get_subtree_data_Some in Hd
    as (_ & _ & _ & _ & _ & _ & _ & _ & _ & _ & _ & Hbf & _).
  destruct (descendants_spec G root) as [Hnd Hin].
  exists (descendants G root). split; [done|]. split; [done|].
  rewrite Hbf, branching_factor_unfold. split.
  - intros Hno.
    by rewrite (filter_none _ _ Hno).
  - intros Hex.
    assert (1 ≤ length (filter (is_leaf G) (descendants G root)))%nat as Hpos.
    { apply filter_length_pos. apply Exists_exists in Hex. done. }
    pose proof (length_filter (is_leaf G) (descendants G root)) as Hle.
    destruct (length (filter (is_leaf G) (descendants G root))) as [|m] eqn:Hm;
      [lia|].
    split; [done|].
    apply Qle_shift_div_l.
    + unfold Qlt. simpl. lia.
    + rewrite Qmult_0_l. unfold Qle. simpl. lia.
Qed.

Lemma branching_factor_value_witness :
  ∃ d, get_subtree_data Samples.two_moves "e2e4" 0 = Some d ∧
       ∃ desc : list Z,
         NoDup desc ∧
         (∀ x, x ∈ desc ↔ x ≠ 0 ∧ reachable Samples.two_moves 0 x) ∧
         (Forall (λ x, ¬ is_leaf Samples.two_moves x) desc → bf d = (-1)%Q).
Proof.
  eexists. split; [vm_compute; reflexivity|].
  destruct (branching_factor_value Samples.two_moves "e2e4" 0 _ eq_refl)
    as (desc & Hnd & Hin & Hno & _).
  exists desc. split; [exact Hnd|]. split; [exact Hin | exact Hno].
Defined.

(** ** Which nodes [get_data] reads *)

Lemma complete_root_attrs G i :
  complete G i →
  ∃ rt, nodes G i = Some rt ∧ is_Some (attr_Q rt) ∧ is_Some (attr_N rt).
Proof. intros (N & q & P & mv & Hi). eexists. split; [done|]. simpl. eauto. Qed.

Lemma get_data_is_Some G uci :
  is_Some (get_data G uci) ↔
  ∃ p, get_subtree_data G uci 0 = Some p ∧
       (∀ m, move_node p = Some m → is_Some (get_subtree_data G uci m)) ∧
       Forall (Forall (λ i, is_Some (get_subtree_data G uci i)))
         [improving_moves p; adv_moves p; losing_moves p; disadv_moves p].
Proof.
  rewrite get_data_unfold.
  destruct (get_subtree_data G uci 0) as [p|]; [|split; [by intros [? ?] | by intros (? & ? & _)]].
  remember [improving_moves p; adv_moves p; losing_moves p; disadv_moves p]
    as sets eqn:Hsets.
  assert (is_Some (mapM (mapM (get_subtree_data G uci)) sets) ↔
          Forall (Forall (λ i, is_Some (get_subtree_data G uci i))) sets) as Hsub.
  { rewrite mapM_is_Some. apply Forall_proper; [|done].
    intros ids. simpl. by rewrite mapM_is_Some. }
  split.
  - intros Hsome. exists p. split; [done|]. rewrite <- Hsets.
    destruct (move_node p) as [m|].
    + destruct (get_subtree_data G uci m) as [md|] eqn:Hmd; simpl in Hsome;
        [|by destruct Hsome].
      destruct (mapM _ sets); [|by destruct Hsome].
      split; [intros ? [= <-]; by eauto|]. apply Hsub. by eauto.
    + destruct (mapM _ sets); [|by destruct Hsome].
      split; [done|]. apply Hsub. by eauto.
  - intros (p' & [= <-] & Hmove & Hall). rewrite <- Hsets in Hall.
    apply Hsub in Hall as [subsets ->].
    destruct (move_node p) as [m|]; [|by eauto].
    destruct (Hmove m eq_refl) as [md ->]. simpl. by eauto.
Qed.

Lemma get_data_reads G uci :
  is_Some (get_data G uci) ↔
  (∃ rt, nodes G 0 = Some rt ∧ is_Some (attr_Q rt) ∧ is_Some (attr_N rt)) ∧
  Forall (complete G) (adj G 0) ∧
  ∀ i, i ∈ adj G 0 →
       ¬ has_move G uci i ∨ last (filter (has_move G uci) (adj G 0)) = Some i →
       Forall (complete G) (adj G i).
Proof.
  rewrite get_data_is_Some. split.
  - intros (p & Hp & Hmove & Hsets).
    assert (is_Some (get_subtree_data G uci 0)) as Hroot by eauto.
    apply get_subtree_data_is_Some in Hroot as [Hrt Hc].
    split; [done|]. split; [done|].
    destruct Hrt as (rt & Hrt & _).
    pose proof (get_subtree_data_Some _ _ _ _ Hp)
      as (succs & Hs & _ & E1 & E2 & _ & _ & Elast & _).
    rewrite (nodes_successors _ _ _ Hrt) in Hs. apply (inj Some) in Hs. subst succs.
    intros i Hi Hcase.
    assert (is_Some (get_subtree_data G uci i)) as Hsi;
      [|by apply get_subtree_data_is_Some in Hsi as [_ ?]].
    destruct Hcase as [Hno|Hlast]; [|apply Hmove; by rewrite Elast].
    apply Forall_cons in Hsets as [Himp Hsets].
    apply Forall_cons in Hsets as [_ Hsets].
    apply Forall_cons in Hsets as [Hlos _].
    rewrite Forall_forall in Himp, Hlos.
    destruct (Qltb 0 (node_Q G i - - root_Q p)) eqn:Hq.
    + apply Himp. rewrite E1. by apply list_elem_of_filter.
    + apply Hlos. rewrite E2. by apply list_elem_of_filter.
  - intros (Hrt & Hc & Hdeep).
    assert (is_Some (get_subtree_data G uci 0)) as [p Hp]
      by (by apply get_subtree_data_is_Some).
    exists p. split; [done|].
    destruct Hrt as (rt & Hrt & _).
    pose proof (get_subtree_data_Some _ _ _ _ Hp)
      as (succs & Hs & _ & E1 & E2 & E3 & E4 & Elast & _).
    rewrite (nodes_successors _ _ _ Hrt) in Hs. apply (inj Some) in Hs. subst succs.
    rewrite Forall_forall in Hc.
    assert (∀ i, i ∈ adj G 0 →
              ¬ has_move G uci i ∨ last (filter (has_move G uci) (adj G 0)) = Some i →
              is_Some (get_subtree_data G uci i)) as Hsub.
    { intros i Hi Hcase. apply get_subtree_data_is_Some.
      split; [by apply complete_root_attrs, Hc | by apply Hdeep]. }
    split.
    + intros m Hm. rewrite Elast in Hm.
      pose proof (last_filter_elem _ _ _ Hm) as [Hin _].
      apply Hsub; [done | by right].
    + rewrite E1, E2, E3, E4.
      repeat constructor; apply Forall_forall; intros i Hi;
        apply list_elem_of_filter in Hi as [[Hno _] Hi]; apply Hsub; tauto.
Qed.

(** X9.  [get_data] returns exactly when node 0 carries [Q] and [N], every
    successor of node 0 carries all four attributes, and so does every
    successor of each successor of node 0 that does not carry the move of
    interest or is the recorded move-of-interest node.  Nodes deeper than
    two edges are never asked for attributes. *)
Theorem get_data_succeeds_iff G uci :
  is_Some (get_data G uci) ↔
  (∃ rt, nodes G 0 = Some rt ∧ is_Some (attr_Q rt) ∧ is_Some (attr_N rt)) ∧
  Forall (complete G) (adj G 0) ∧
  ∀ i, i ∈ adj G 0 →
       ¬ has_move G uci i ∨ last (filter (has_move G uci) (adj G 0)) = Some i →
       Forall (complete G) (adj G i).
Proof. apply get_data_reads. Qed.

Lemma get_data_Some_full G uci t :
  get_data G uci = Some t →
  get_subtree_data G uci 0 = Some (td_parent t) ∧
  td_move t = move_node (td_parent t) ≫= get_subtree_data G uci ∧
  Forall2 (Forall2 (λ i d, get_subtree_data G uci i = Some d))
    [improving_moves (td_parent t); adv_moves (td_parent t);
     losing_moves (td_parent t); disadv_moves (td_parent t)]
    (td_subsets t).
Proof.
  rewrite get_data_unfold.
  destruct (get_subtree_data G uci 0) as [p|]; [|done].
  remember [improving_moves p; adv_moves p; losing_moves p; disadv_moves p]
    as sets eqn:Hsets.
  destruct (mapM (mapM (get_subtree_data G uci)) sets) as [subsets|] eqn:Hsub.
  - apply mapM_Some in Hsub.
    assert (Forall2 (Forall2 (λ i d, get_subtree_data G uci i = Some d))
              sets subsets) as Hsub'.
    { eapply Forall2_impl; [done|]. intros ids s Hs. by apply mapM_Some. }
    destruct (move_node p) as [m|] eqn:Hm.
    + destruct (get_subtree_data G uci m) as [md|] eqn:Hmd; [|done].
      intros Ht. apply (inj Some) in Ht. subst t sets. simpl.
      rewrite Hm. simpl. by rewrite Hmd.
    + intros Ht. apply (inj Some) in Ht. subst t sets. simpl. by rewrite Hm.
  - by destruct (match move_node p with None => _ | Some m => _ end).
Qed.

(** X10.  What [get_data] returns: the extraction rooted at node 0; the
    extraction rooted at the recorded move-of-interest node, or nothing when
    no move was recorded; and four lists that hold, for the improving,
    advantageous, losing and disadvantageous sets in this order, one
    extraction per member, rooted at that member, in the order of the set. *)
Theorem get_data_parts G uci t :
  get_data G uci = Some t →
  get_subtree_data G uci 0 = Some (td_parent t) ∧
  td_move t = move_node (td_parent t) ≫= get_subtree_data G uci ∧
  (is_Some (td_move t) ↔ is_Some (move_node (td_parent t))) ∧
  ∃ s0 s1 s2 s3,
    td_subsets t = [s0; s1; s2; s3] ∧
    Forall2 (λ i d, get_subtree_data G uci i = Some d)
      (improving_moves (td_parent t)) s0 ∧
    Forall2 (λ i d, get_subtree_data G uci i = Some d)
      (adv_moves (td_parent t)) s1 ∧
    Forall2 (λ i d, get_subtree_data G uci i = Some d)
      (losing_moves (td_parent t)) s2 ∧
    Forall2 (λ i d, get_subtree_data G uci i = Some d)
      (disadv_moves (td_parent t)) s3.
Proof.
  intros Ht. pose proof (get_data_Some_full _ _ _ Ht) as (Hp & Hm & Hsub).
  assert (is_Some (get_data G uci)) as Hsome by eauto.
  apply get_data_is_Some in Hsome as (p & Hp' & Hmove & _).
  assert (p = td_parent t) as -> by congruence.
  split; [done|]. split; [done|]. split.
  - rewrite Hm. destruct (move_node (td_parent t)) as [m|]; simpl.
    + split; [by eauto|]. intros _. by apply Hmove.
    + split; by intros [? ?].
  - destruct (td_subsets t) as [|s0 [|s1 [|s2 [|s3 [|s4 rest]]]]];
      try (apply Forall2_length in Hsub; simpl in Hsub; lia).
    exists s0, s1, s2, s3. split; [done|].
    apply Forall2_cons in Hsub as [H0 Hsub].
    apply Forall2_cons in Hsub as [H1 Hsub].
    apply Forall2_cons in Hsub as [H2 Hsub].
    apply Forall2_cons in Hsub as [H3 _]. done.
Qed.

Lemma get_data_parts_witness :
  ∃ t, get_data Samples.two_moves "e2e4" = Some t ∧
       td_move t = move_node (td_parent t) ≫= get_subtree_data Samples.two_moves "e2e4" ∧
       (is_Some (td_move t) ↔ is_Some (move_node (td_parent t))).
Proof.
  eexists. split; [vm_compute; reflexivity|].
  destruct (get_data_parts Samples.two_moves "e2e4" _ eq_refl)
    as (_ & Hm & Hiff & _).
  split; [exact Hm | exact Hiff].
Defined.

(** * Further properties of the aggregation *)

Section Rows.

Variables np_mean np_std : list Q → Q.

Lemma move_run_blocks m slots : ∀ st,
  foldl (tree_step np_mean np_std m) st slots =
  (st.1 ++ concat ((λ wt, default [] (tree_block np_mean np_std m wt)) <$> slots),
   st.2 ++ filter (λ wt, tree_block np_mean np_std m wt = None) slots).
Proof.
  induction slots as [|wt slots IH]; intros [row bad]; csimpl.
  - by rewrite !app_nil_r.
  - rewrite IH, filter_cons.
    change (tree_step np_mean np_std m (row, bad) wt)
      with (match tree_block np_mean np_std m wt with
            | Some f => (row ++ f, bad)
            | None => (row, bad ++ [wt])
            end).
    destruct (tree_block np_mean np_std m wt) as [f|] eqn:Hf; simpl.
    + by rewrite (assoc_L (++)).
    + by rewrite <- (assoc_L (++)).
Qed.

Lemma tree_slots_eq :
  tree_slots =
  [(0, 1); (0, 2); (0, 3); (0, 4); (0, 5);
   (1, 1); (1, 2); (1, 3); (1, 4); (1, 5)]%nat.
Proof. reflexivity. Qed.

Lemma move_row_blocks m :
  move_row np_mean np_std m =
    concat ((λ wt, default [] (tree_block np_mean np_std m wt)) <$> tree_slots) ∧
  bad_trees np_mean np_std m =
    filter (λ wt, tree_block np_mean np_std m wt = None) tree_slots.
Proof.
  unfold move_row, bad_trees, move_run. by rewrite move_run_blocks.
Qed.

(** X11.  The row of a move is the concatenation, in the order lc0 trees 1
    to 5 and then maia trees 1 to 5, of the 398-entry blocks of the trees
    that were read and processed; a tree that fails contributes nothing and
    is reported, so the row has 3980 - 398 * (number of reports) entries. *)
Theorem row_is_concatenation_of_good_blocks m :
  tree_slots =
    [(0, 1); (0, 2); (0, 3); (0, 4); (0, 5);
     (1, 1); (1, 2); (1, 3); (1, 4); (1, 5)]%nat ∧
  move_row np_mean np_std m =
    concat ((λ wt, default [] (tree_block np_mean np_std m wt)) <$> tree_slots) ∧
  bad_trees np_mean np_std m =
    filter (λ wt, tree_block np_mean np_std m wt = None) tree_slots ∧
  (∀ wt f, tree_block np_mean np_std m wt = Some f → length f = 398%nat) ∧
  (length (move_row np_mean np_std m) +
   398 * length (bad_trees np_mean np_std m) = 3980)%nat.
Proof.
  split; [reflexivity|]. destruct (move_row_blocks m) as [Hrow Hbad].
  split; [done|]. split; [done|]. split; [|apply move_row_length].
  intros wt f. unfold tree_block.
  destruct (md_tree m wt.1 wt.2) as [G|]; [|done]. simpl.
  apply tree_features_length.
Qed.

Lemma concat_lookup_uniform (n : nat) (bs : list (list Q)) : ∀ k b j,
  Forall (λ b, length b = n) bs → bs !! k = Some b → (j < n)%nat →
  concat bs !! (n * k + j)%nat = b !! j.
Proof.
  induction bs as [|b0 bs IH]; intros k b j Hall Hk Hj; [done|].
  apply Forall_cons in Hall as [Hb0 Hall]. simpl.
  destruct k as [|k]; simpl in Hk.
  - apply (inj Some) in Hk. subst b0.
    rewrite lookup_app_l by lia. f_equal. lia.
  - rewrite lookup_app_r by lia.
    replace (n * S k + j - length b0)%nat with (n * k + j)%nat by lia.
    by apply IH.
Qed.

Lemma tree_slots_lookup (w t : nat) :
  (w < 2)%nat → (t < 5)%nat → tree_slots !! (5 * w + t)%nat = Some (w, S t).
Proof.
  intros Hw Ht.
  destruct w as [|[|w]]; [| |lia];
    destruct t as [|[|[|[|[|t]]]]]; try lia; reflexivity.
Qed.

Lemma complete_row_block m w t G f :
  bad_trees np_mean np_std m = [] →
  (w < 2)%nat → (t < 5)%nat →
  md_tree m w (S t) = Some G →
  tree_features np_mean np_std G (md_uci m) = Some f →
  ∀ k, (k < 398)%nat →
       move_row np_mean np_std m !! (398 * (5 * w + t) + k)%nat = f !! k.
Proof.
  intros Hbad Hw Ht HG Hf k Hk.
  destruct (move_row_blocks m) as [-> Hbad'].
  rewrite Hbad in Hbad'. symmetry in Hbad'.
  apply concat_lookup_uniform; [|rewrite list_lookup_fmap, tree_slots_lookup by done|done].
  - apply Forall_fmap, Forall_forall. intros wt Hwt. simpl.
    destruct (tree_block np_mean np_std m wt) as [b|] eqn:Hb.
    + simpl. unfold tree_block in Hb.
      destruct (md_tree m wt.1 wt.2); [|done]. simpl in Hb.
      by apply tree_features_length in Hb.
    + exfalso. assert (wt ∈ filter (λ wt, tree_block np_mean np_std m wt = None)
                          tree_slots) as Hin by (by apply list_elem_of_filter).
      rewrite Hbad' in Hin. by apply elem_of_nil in Hin.
  - simpl. unfold tree_block. simpl. rewrite HG. simpl. by rewrite Hf.
Qed.

Lemma tree_features_vectors G uci f t :
  get_data G uci = Some t →
  tree_features np_mean np_std G uci = Some f →
  f !! 0%nat = Some (Qbool (bool_decide (is_Some (move_node (td_parent t))))) ∧
  f !! 1%nat = Some (Qbool (move_is_best (td_parent t))) ∧
  ∀ v vec j, tree_feature_list np_mean np_std t !! v = Some vec → (j < 22)%nat →
             f !! (2 + (22 * v + j))%nat = vec !! j.
Proof.
  intros Ht. unfold tree_features. rewrite Ht. cbn [mbind option_bind].
  intros Hf. apply (inj Some) in Hf. subst f.
  split; [done|]. split; [done|].
  intros v vec j Hv Hj. cbn [app lookup list_lookup].
  apply concat_lookup_uniform; [|done..].
  apply tree_feature_list_rows.
Qed.

End Rows.

(** ** The layout of a complete row *)

Lemma row_at_flags row (w t j : nat) :
  row_at row w t j None 0 = row !! (398 * (5 * w + t) + j)%nat.
Proof.
  unfold row_at. f_equal. cbn [fmap option_fmap option_map].
  unfold Indexer.index_flat. lia.
Qed.

Lemma row_at_vector row (w t j v : nat) :
  (v < 2)%nat →
  row_at row w t j (Some v) 0 =
  row !! (398 * (5 * w + t) + (2 + (22 * v + j)))%nat.
Proof.
  intros Hv. unfold row_at. f_equal. cbn [fmap option_fmap option_map].
  unfold Indexer.index_flat. destruct (Z.ltb_spec (Z.of_nat v) 2); lia.
Qed.

Lemma row_at_aggregate row (w t j s a : nat) :
  row_at row w t j (Some (2 + s)%nat) a =
  row !! (398 * (5 * w + t) + (2 + (22 * (2 + (4 * s + a)) + j)))%nat.
Proof.
  unfold row_at. f_equal. cbn [fmap option_fmap option_map].
  unfold Indexer.index_flat.
  destruct (Z.ltb_spec (Z.of_nat (2 + s)) 2); lia.
Qed.

(** X12.  In the row of a move all of whose trees were processed, the
    entries sit where [index_flat] addresses them.  For weight index [w] and
    tree index [t] (tree file number [t+1]): [index_flat(w,t,0)] and
    [index_flat(w,t,1)] hold the two flags, [index_flat(w,t,j,subtree=0)]
    and [index_flat(w,t,j,subtree=1)] hold feature [j] of the parent and of
    the move-of-interest subtree (or of the blank vector), and
    [index_flat(w,t,j,subtree=2+s,agg=a)] holds feature [j] of aggregate [a]
    (mean, std, max, min) of subset [s]. *)
Theorem row_layout (np_mean np_std : list Q → Q) m (w t : nat) G tdat :
  bad_trees np_mean np_std m = [] →
  (w < 2)%nat → (t < 5)%nat →
  md_tree m w (S t) = Some G →
  get_data G (md_uci m) = Some tdat →
  row_at (move_row np_mean np_std m) w t 0 None 0 =
    Some (Qbool (bool_decide (is_Some (move_node (td_parent tdat))))) ∧
  row_at (move_row np_mean np_std m) w t 1 None 0 =
    Some (Qbool (move_is_best (td_parent tdat))) ∧
  (∀ j, (j < 22)%nat →
     row_at (move_row np_mean np_std m) w t j (Some 0%nat) 0 =
       feature_transform np_mean np_std (td_parent tdat) !! j) ∧
  (∀ j, (j < 22)%nat →
     row_at (move_row np_mean np_std m) w t j (Some 1%nat) 0 =
       match td_move tdat with
       | Some d => feature_transform np_mean np_std d
       | None => defaults
       end !! j) ∧
  (∀ s a j subset, (s < 4)%nat → (a < 4)%nat → (j < 22)%nat →
     td_subsets tdat !! s = Some subset →
     row_at (move_row np_mean np_std m) w t j (Some (2 + s)%nat) a =
       subset_features np_mean np_std subset !! a ≫= (λ vec, vec !! j)).
Proof.
  intros Hbad Hw Ht HG Hdat.
  assert (is_Some (tree_features np_mean np_std G (md_uci m))) as [f Hf]
    by (unfold tree_features; rewrite Hdat; by eauto).
  pose proof (complete_row_block np_mean np_std m w t G f Hbad Hw Ht HG Hf) as Hrow.
  destruct (tree_features_vectors np_mean np_std G _ f tdat Hdat Hf)
    as (Hf0 & Hf1 & Hvec).
  split_and!.
  - rewrite row_at_flags, Hrow by lia. done.
  - rewrite row_at_flags, Hrow by lia. done.
  - intros j Hj. rewrite row_at_vector, Hrow by lia. by apply (Hvec 0%nat).
  - intros j Hj. rewrite row_at_vector, Hrow by lia. by apply (Hvec 1%nat).
  - intros s a j subset Hs Ha Hj Hsub.
    rewrite row_at_aggregate, Hrow by lia.
    assert (is_Some (subset_features np_mean np_std subset !! a)) as [vec Hvec'].
    { apply lookup_lt_is_Some. rewrite subset_features_length. lia. }
    rewrite Hvec'. cbn [mbind option_bind]. apply Hvec; [|done].
    unfold tree_feature_list. rewrite lookup_app_r by (cbn [length]; lia).
    cbn [length]. replace (2 + (4 * s + a) - 2)%nat with (4 * s + a)%nat by lia.
    by rewrite (subsets_lookup _ _ _ s subset a).
Qed.

Lemma row_layout_witness :
  ∃ tdat,
    bad_trees Samples.mean_q Samples.std_q Samples.all_trees = [] ∧
    Samples.md_tree_at 1 5 = Some Samples.two_moves ∧
    get_data Samples.two_moves "e2e4" = Some tdat ∧
    row_at (move_row Samples.mean_q Samples.std_q Samples.all_trees)
      1 4 1 None 0 = Some (Qbool (move_is_best (td_parent tdat))).
Proof.
  eexists. split; [vm_compute; reflexivity|]. split; [reflexivity|].
  split; [vm_compute; reflexivity|].
  assert (bad_trees Samples.mean_q Samples.std_q Samples.all_trees = []) as Hbad
    by (vm_compute; reflexivity).
  destruct (row_layout Samples.mean_q Samples.std_q Samples.all_trees 1 4
              Samples.two_moves _ Hbad ltac:(lia) ltac:(lia) eq_refl eq_refl)
    as (_ & Hbest & _).
  exact Hbest.
Defined.

(** ** When [parse_trees] returns *)





(** ** Shapes *)

(** X14.  Whatever the subtree data, [feature_transform] returns 22 entries,
    also when the width profile has more than eight depths; the blank vector
    has 22 entries; a subset of moves, empty or not, yields four vectors of
    22 entries; and a processed tree contributes 2 + 18 * 22 = 398 entries. *)
Theorem feature_shapes (np_mean np_std : list Q → Q) :
  (∀ d, length (feature_transform np_mean np_std d) = 22%nat) ∧
  length defaults = 22%nat ∧
  (∀ subset,
     length (subset_features np_mean np_std subset) = 4%nat ∧
     Forall (λ vec, length vec = 22%nat) (subset_features np_mean np_std subset)) ∧
  (∀ G uci f, tree_features np_mean np_std G uci = Some f → length f = 398%nat).
Proof.
  split; [apply feature_transform_length|]. split; [reflexivity|].
  split; [|apply tree_features_length].
  intros subset. split; [apply subset_features_length | apply subset_features_rows].
Qed.

Lemma feature_shapes_witness :
  ∃ f, tree_features Samples.mean_q Samples.std_q Samples.two_moves "e2e4" = Some f ∧
       length f = 398%nat.
Proof.
  eexists. split; [vm_compute; reflexivity|].
  apply (proj2 (proj2 (proj2 (feature_shapes Samples.mean_q Samples.std_q)))
           Samples.two_moves "e2e4").
  reflexivity.
Defined.

(** * The network consumes rows of 3980 entries *)

Module NetworkFacts.
Import Network.

Lemma slice_length (a b : Z) (x : list Q) :
  length (slice a b x) =
  ((Z.to_nat b - Z.to_nat a) `min` (length x - Z.to_nat a))%nat.
Proof. unfold slice. by rewrite length_take, length_drop. Qed.

Lemma tree_slice_length (x : list Q) (t w : nat) :
  length (slice (Indexer.index_flat (Z.of_nat w) (Z.of_nat t) 0 None 0)
                (Indexer.index_flat (Z.of_nat w) (Z.of_nat t + 1) 0 None 0) x) =
  (398 `min` (length x - 398 * (5 * w + t)))%nat.
Proof. rewrite slice_length. unfold Indexer.index_flat. lia. Qed.

Lemma weight_feats_length (x h : list Q) (t w : nat) :
  (t < 5)%nat → (w < 2)%nat → (3980 ≤ length x)%nat →
  length (weight_feats x (Z.of_nat t) (Z.of_nat w) h) = (2 + 44 + length h)%nat.
Proof.
  intros Ht Hw Hx. unfold weight_feats.
  rewrite !length_app, !slice_length. unfold Indexer.index_flat.
  change (0 <? 2) with true. change (2 <? 2) with false. cbv iota. lia.
Qed.

Lemma tree_hidden_Some net x (t w : nat) :
  sized net → (t < 5)%nat → (w < 2)%nat → (3980 ≤ length x)%nat →
  ∃ h, tree_hidden net x (Z.of_nat t) (Z.of_nat w) = Some h ∧ length h = h1 net.
Proof.
  intros (Htree & _) Ht Hw Hx. unfold tree_hidden, tree_layer, run_block.
  pose proof (tree_slice_length x t w) as Hlen.
  rewrite decide_True by lia. eexists. split; [done|]. apply Htree. lia.
Qed.

Lemma mapM_pair {A} (f : A → option (list Q)) (a b : A) (ya yb : list Q) :
  f a = Some ya → f b = Some yb → mapM f [a; b] = Some [ya; yb].
Proof. intros Ha Hb. simpl. by rewrite Ha, Hb. Qed.

Lemma mapM_five {A B} (f : A → option B) (a0 a1 a2 a3 a4 : A)
    (y0 y1 y2 y3 y4 : B) :
  f a0 = Some y0 → f a1 = Some y1 → f a2 = Some y2 → f a3 = Some y3 →
  f a4 = Some y4 →
  mapM f [a0; a1; a2; a3; a4] = Some [y0; y1; y2; y3; y4].
Proof. intros H0 H1 H2 H3 H4. simpl. by rewrite H0, H1, H2, H3, H4. Qed.

Lemma forward_complete net x :
  sized net → (3980 ≤ length x)%nat →
  ∃ y, forward net x = Some y ∧ length y = 1%nat.
Proof.
  intros Hsized Hx. pose proof Hsized as (_ & Hweight & Hfinal).
  assert (∀ t, (t < 5)%nat →
            ∃ ha hb, mapM (tree_hidden net x (Z.of_nat t)) [0; 1] = Some [ha; hb] ∧
                     length ha = h1 net ∧ length hb = h1 net) as Hh1.
  { intros t Ht.
    destruct (tree_hidden_Some net x t 0 Hsized Ht ltac:(lia) Hx) as (ha & Ha & Hla).
    destruct (tree_hidden_Some net x t 1 Hsized Ht ltac:(lia) Hx) as (hb & Hb & Hlb).
    exists ha, hb. split; [|done]. by apply mapM_pair. }
  assert (∀ t ha hb, (t < 5)%nat → length ha = h1 net → length hb = h1 net →
            ∃ g, weight_layer net
                   (concat ((λ wh : Z * list Q, weight_feats x (Z.of_nat t) wh.1 wh.2)
                              <$> zip [0; 1] [ha; hb])) = Some g ∧
                 length g = h2 net) as Hh2.
  { intros t ha hb Ht Hla Hlb. unfold weight_layer, run_block.
    pose proof (weight_feats_length x ha t 0 Ht ltac:(lia) Hx) as H0.
    pose proof (weight_feats_length x hb t 1 Ht ltac:(lia) Hx) as H1.
    assert (length (concat ((λ wh : Z * list Q, weight_feats x (Z.of_nat t) wh.1 wh.2)
                              <$> zip [0; 1] [ha; hb])) =
            ((h1 net + 22 * 2 + 2) * 2)%nat) as Hlen.
    { change (length (weight_feats x (Z.of_nat t) (Z.of_nat 0) ha ++
                      weight_feats x (Z.of_nat t) (Z.of_nat 1) hb ++ []) =
              ((h1 net + 22 * 2 + 2) * 2)%nat).
      rewrite !length_app, H0, H1. simpl. lia. }
    rewrite decide_True by done. eexists. split; [done|]. by apply Hweight. }
  destruct (Hh1 0%nat ltac:(lia)) as (a0 & b0 & E0 & ? & ?).
  destruct (Hh1 1%nat ltac:(lia)) as (a1 & b1 & E1 & ? & ?).
  destruct (Hh1 2%nat ltac:(lia)) as (a2 & b2 & E2 & ? & ?).
  destruct (Hh1 3%nat ltac:(lia)) as (a3 & b3 & E3 & ? & ?).
  destruct (Hh1 4%nat ltac:(lia)) as (a4 & b4 & E4 & ? & ?).
  destruct (Hh2 0%nat a0 b0 ltac:(lia)) as (g0 & F0 & ?); [done..|].
  destruct (Hh2 1%nat a1 b1 ltac:(lia)) as (g1 & F1 & ?); [done..|].
  destruct (Hh2 2%nat a2 b2 ltac:(lia)) as (g2 & F2 & ?); [done..|].
  destruct (Hh2 3%nat a3 b3 ltac:(lia)) as (g3 & F3 & ?); [done..|].
  destruct (Hh2 4%nat a4 b4 ltac:(lia)) as (g4 & F4 & ?); [done..|].
  unfold forward.
  rewrite (mapM_five (λ tree, mapM (tree_hidden net x tree) [0; 1])
             0 1 2 3 4 _ _ _ _ _ E0 E1 E2 E3 E4).
  cbn [mbind option_bind].
  change (zip [0; 1; 2; 3; 4]
            [[a0; b0]; [a1; b1]; [a2; b2]; [a3; b3]; [a4; b4]])
    with [(0, [a0; b0]); (1, [a1; b1]); (2, [a2; b2]); (3, [a3; b3]);
          (4, [a4; b4])].
  rewrite (mapM_five
             (λ th : Z * list (list Q),
                weight_layer net
                  (concat ((λ wh : Z * list Q, weight_feats x th.1 wh.1 wh.2)
                             <$> zip [0; 1] th.2)))
             (0, [a0; b0]) (1, [a1; b1]) (2, [a2; b2]) (3, [a3; b3])
             (4, [a4; b4]) _ _ _ _ _ F0 F1 F2 F3 F4).
  cbn [mbind option_bind].
  unfold final_layer, run_block.
  assert (length (concat [g0; g1; g2; g3; g4]) = (h2 net * 5)%nat) as Hlen
    by (simpl; rewrite !length_app; simpl; lia).
  rewrite decide_True by done. eexists. split; [done|]. by apply Hfinal.
Qed.

Lemma forward_needs_3980 net x :
  is_Some (forward net x) → (3980 ≤ length x)%nat.
Proof.
  unfold forward. intros [y Hy].
  destruct (mapM (λ tree, mapM (tree_hidden net x tree) [0; 1]) [0; 1; 2; 3; 4])
    as [h1s|] eqn:Hh1s; [|done].
  assert (is_Some (mapM (λ tree, mapM (tree_hidden net x tree) [0; 1])
                     [0; 1; 2; 3; 4])) as Hsome by eauto.
  apply mapM_is_Some in Hsome. rewrite Forall_forall in Hsome.
  assert (is_Some (mapM (tree_hidden net x 4) [0; 1])) as Hlast.
  { apply (Hsome 4). rewrite !elem_of_cons. tauto. }
  apply mapM_is_Some in Hlast. rewrite Forall_forall in Hlast.
  assert (is_Some (tree_hidden net x 4 1)) as [h Hh].
  { apply (Hlast 1). rewrite !elem_of_cons. tauto. }
  unfold tree_hidden, tree_layer, run_block in Hh.
  case_decide as Hlen; [|done].
  pose proof (tree_slice_length x 4 1) as Hslice.
  change (Z.of_nat 4) with 4 in Hslice. change (Z.of_nat 1) with 1 in Hslice.
  rewrite Hslice in Hlen. lia.
Qed.

(** X15.  When every block returns as many features as it declares,
    [forward] succeeds on a row exactly when the row has at least 3980
    entries: all the slices it takes with [index_flat] then have the widths
    the layers expect (398 per tree, and 2 + 44 + h1 per weight set), and
    the result is a single score.  A shorter row makes a layer raise. *)
Theorem forward_defined_iff net x :
  sized net →
  (is_Some (forward net x) ↔ (3980 ≤ length x)%nat) ∧
  (∀ y, forward net x = Some y → length y = 1%nat).
Proof.
  intros Hsized. split.
  - split; [apply forward_needs_3980|]. intros Hx.
    destruct (forward_complete net x Hsized Hx) as (y & -> & _). by eauto.
  - intros y Hy.
    assert (3980 ≤ length x)%nat as Hx by (apply (forward_needs_3980 net); by eauto).
    destruct (forward_complete net x Hsized Hx) as (y' & Hy' & Hlen). congruence.
Qed.

End NetworkFacts.

(** * The moves collected from a game *)

Module PgnFacts.
Import Pgn.

Lemma height_pos n : (1 ≤ height n)%nat.
Proof. destruct n; simpl; lia. Qed.

Lemma max_list_app_max l k : max_list (l ++ k) = (max_list l `max` max_list k)%nat.
Proof. induction l as [|x l IH]; simpl; [done|]. rewrite IH. lia. Qed.

Lemma forest_height_app a b :
  forest_height (a ++ b) = (forest_height a `max` forest_height b)%nat.
Proof. unfold forest_height. by rewrite fmap_app, max_list_app_max. Qed.

Lemma forest_height_variations q :
  (forest_height (q ≫= variations) ≤ pred (forest_height q))%nat.
Proof.
  induction q as [|[uci vs] q IH]; csimpl; [done|].
  rewrite forest_height_app. unfold forest_height in *. csimpl. lia.
Qed.

Lemma forest_height_zero q : forest_height q = 0%nat → q = [].
Proof.
  destruct q as [|n q]; [done|]. unfold forest_height. csimpl.
  pose proof (height_pos n). lia.
Qed.

Lemma below_nil h : below h [] = [].
Proof. induction h as [|h IH]; [done|]. simpl. by rewrite IH. Qed.

(** Taking the first nodes of a level out of the queue and putting their
    variations at its end does not change what lies below. *)
Lemma below_rotate h : ∀ a b,
  (forest_height (a ++ b) ≤ h)%nat →
  below h (a ++ b) = (a ≫= variations) ++ below h (b ++ (a ≫= variations)).
Proof.
  induction h as [|h IH]; intros a b Hh.
  - assert (a ++ b = []) as Hnil by (apply forest_height_zero; lia).
    apply app_eq_nil in Hnil as [-> ->]. done.
  - simpl. rewrite !bind_app.
    rewrite (IH (a ≫= variations) (b ≫= variations)).
    + by rewrite <- !(assoc_L (++)).
    + rewrite <- bind_app.
      pose proof (forest_height_variations (a ++ b)). lia.
Qed.

Lemma collect_with_variations fuel : ∀ q m h,
  (sum_list (size <$> q) < fuel)%nat → (forest_height q ≤ h)%nat →
  collect fuel true (Some <$> q) m = Returned (m ++ (Some <$> below h q)).
Proof.
  induction fuel as [|fuel IH]; intros q m h Hfuel Hh; [lia|].
  destruct q as [|[uci vs] q]; csimpl.
  - by rewrite below_nil, app_nil_r.
  - rewrite <- fmap_app. rewrite (IH _ _ h).
    + f_equal. rewrite <- (assoc_L (++)). f_equal. rewrite <- fmap_app. f_equal.
      change (GameNode uci vs :: q) with ([GameNode uci vs] ++ q).
      rewrite (below_rotate h [GameNode uci vs] q) by done.
      csimpl. by rewrite app_nil_r.
    + csimpl in Hfuel. rewrite fmap_app, sum_list_with_app. lia.
    + rewrite forest_height_app.
      unfold forest_height in *. csimpl in Hh. lia.
Qed.

Lemma bind_level_succ k (q : list game_node) :
  q ≫= level (S k) = (q ≫= variations) ≫= level k.
Proof.
  induction q as [|n q IH]; [done|].
  rewrite !bind_cons, bind_app, IH. done.
Qed.

Lemma bind_level_one (q : list game_node) : q ≫= level 1 = q ≫= variations.
Proof.
  induction q as [|n q IH]; [done|].
  rewrite !bind_cons, IH. f_equal. simpl.
  induction (variations n) as [|v vs IHv]; [done|].
  rewrite bind_cons, IHv. done.
Qed.

Lemma below_levels h : ∀ q,
  below h q = concat ((λ k, q ≫= level k) <$> seq 1 h).
Proof.
  induction h as [|h IH]; intros q; [done|].
  cbn [below]. rewrite IH.
  change (seq 1 (S h)) with (1%nat :: seq 2 h).
  rewrite <- (fmap_S_seq 1 h), fmap_cons, <- list_fmap_compose.
  cbn [concat]. f_equal; [by rewrite bind_level_one|].
  f_equal. apply list_fmap_ext. intros i k _.
  cbn [compose]. by rewrite bind_level_succ.
Qed.

(** X16.  With variations enabled, the loop returns every node below the
    root of the game level by level: first the variations of the root in
    their order, then the nodes two moves deep, and so on; within a level the
    nodes keep the order of their parents and of the variations. *)
Theorem moves_are_listed_by_level game :
  collect_moves true game =
  Returned (Some <$> concat ((λ k, level k game) <$> seq 1 (height game))).
Proof.
  unfold collect_moves.
  rewrite (collect_with_variations _ [game] [] (height game)).
  - csimpl. do 2 f_equal. rewrite below_levels. f_equal.
    apply list_fmap_ext. intros i k _. csimpl. by rewrite app_nil_r.
  - csimpl. lia.
  - unfold forest_height. csimpl. lia.
Qed.

Lemma collect_without_variations fuel : ∀ c m,
  (size c < fuel)%nat → collect fuel false [Some c] m = Raised.
Proof.
  induction fuel as [|fuel IH]; intros [uci vs] m Hfuel; [lia|].
  simpl. destruct vs as [|v vs]; simpl.
  - destruct fuel; [simpl in Hfuel; lia | done].
  - apply IH. simpl in Hfuel. csimpl in Hfuel. lia.
Qed.

(** X17.  With variations disabled, the loop raises on every game: at the
    end of the main line [next()] returns [None], which is put in the queue
    and then asked for its [next()].  No move folder is written. *)
Theorem no_variations_always_raises game :
  collect_moves false game = Raised.
Proof. unfold collect_moves. apply collect_without_variations. lia. Qed.

End PgnFacts.

(** * The epochs of [training_loop] *)

Module TrainingFacts.
Import Training.

Section Loop.

Context {W : Type}.
Variables train_pass eval_pass : W → W * (Q * Q * Q).
Variables n_train n_test : nat.
Variable fdiv : Q → Q → Q.

Lemma epoch_body_Some epoch (v v' : @loop_vars W) :
  epoch_body train_pass eval_pass n_train n_test fdiv epoch v = Some v' →
  ∃ val_acc train_loss train_acc test_loss,
    lv_test_acc v' = lv_test_acc v ++ [val_acc] ∧
    lv_train_loss v' = lv_train_loss v ++ [train_loss] ∧
    lv_train_acc v' = lv_train_acc v ++ [train_acc] ∧
    lv_test_loss v' = lv_test_loss v ++ [test_loss] ∧
    (if Qltb (lv_best_acc v) val_acc
     then lv_best_acc v' = val_acc ∧ lv_best_epoch v' = epoch ∧
          lv_best_net v' = true ∧ lv_early_stop_count v' = 0%nat
     else lv_best_acc v' = lv_best_acc v ∧ lv_best_epoch v' = lv_best_epoch v ∧
          lv_best_net v' = lv_best_net v ∧
          lv_early_stop_count v' = lv_early_stop_count v) ∧
    (2 ≤ n_train)%nat ∧ (2 ≤ n_test)%nat.
Proof.
  unfold epoch_body. destruct n_train as [|k]; [done|].
  destruct (train_pass (lv_network v)) as [net1 [[loss correct] total]].
  destruct (py_div fdiv loss (Qnat k)) as [tl|] eqn:Htl; [|done].
  destruct (py_div fdiv correct total) as [ta|]; [|done]. simpl.
  destruct n_test as [|k']; [done|].
  destruct (eval_pass net1) as [net2 [[vloss vcorrect] vtotal]].
  destruct (py_div fdiv vcorrect vtotal) as [val_acc|]; [|done]. simpl.
  destruct (py_div fdiv vloss (Qnat k')) as [vl|] eqn:Hvl; [|done]. simpl.
  intros Hv. apply (inj Some) in Hv. subst v'. simpl.
  exists val_acc, tl, ta, vl. split_and!; try done.
  - by destruct (Qltb (lv_best_acc v) val_acc).
  - destruct k; [|lia]. by vm_compute in Htl.
  - destruct k'; [|lia]. by vm_compute in Hvl.
Qed.

Lemma epoch_step limit epoch (v v' : @loop_vars W) :
  loop_inv limit epoch v →
  stops limit (S (lv_early_stop_count v)) = false →
  epoch_body train_pass eval_pass n_train n_test fdiv epoch (bump v) = Some v' →
  loop_inv limit (S epoch) v'.
Proof.
  intros (L1 & L2 & L3 & L4 & Hle & Hbest & Hlim) Hstop Hbody.
  apply epoch_body_Some in Hbody
    as (val_acc & tl & ta & vl & E1 & E2 & E3 & E4 & Hupd & _).
  simpl in *. unfold loop_inv. rewrite E1, E2, E3, E4, !length_app. simpl.
  split_and!; try lia.
  - intros j x Hj. apply lookup_app_Some in Hj as [Hj|[_ Hj]].
    + destruct (Qltb (lv_best_acc v) val_acc) eqn:Hlt;
        destruct Hupd as (-> & _).
      * apply Qltb_lt in Hlt. eapply Qle_trans; [by eapply Hle|].
        by apply Qlt_le_weak.
      * by eapply Hle.
    + apply list_lookup_singleton_Some in Hj as [_ <-].
      destruct (Qltb (lv_best_acc v) val_acc) eqn:Hlt;
        destruct Hupd as (-> & _); [apply Qle_refl | by apply Qltb_ge].
  - destruct (Qltb (lv_best_acc v) val_acc) eqn:Hlt;
      destruct Hupd as (-> & -> & -> & ->).
    + apply Qltb_lt in Hlt. split_and!.
      * destruct (lv_best_net v).
        -- destruct Hbest as (Hpos & _). by eapply Qlt_trans.
        -- destruct Hbest as (Hz & _). by rewrite Hz in Hlt.
      * rewrite lookup_app_r by lia. by rewrite L1, Nat.sub_diag.
      * intros j x Hj Hx. rewrite lookup_app_l in Hx by lia.
        eapply Qle_lt_trans; [by eapply Hle | done].
      * lia.
    + destruct (lv_best_net v).
      * destruct Hbest as (Hpos & Hat & Hbefore & Hcount). split_and!.
        -- done.
        -- rewrite lookup_app_l; [done|]. by apply lookup_lt_Some in Hat.
        -- intros j x Hj Hx. eapply Hbefore; [done|].
           rewrite lookup_app_l in Hx; [done|].
           apply lookup_lt_Some in Hat. lia.
        -- lia.
      * destruct Hbest as (Hz & He & Hcount). split_and!; [done..|lia].
  - intros L HL. unfold stops in Hstop. rewrite HL in Hstop.
    apply Nat.ltb_ge in Hstop.
    destruct (Qltb (lv_best_acc v) val_acc);
      destruct Hupd as (_ & _ & _ & ->); lia.
Qed.

Lemma loop_inv_init limit (network : W) :
  loop_inv limit 0 (LoopVars network 0%Q 0 false 0 [] [] [] []).
Proof. unfold loop_inv. simpl. split_and!; try done. intros L _. lia. Qed.

(** The state in which the loop ends: the invariant holds for the number of
    epochs run, up to the last increment of [early_stop_count]. *)
Lemma epochs_final limit remaining : ∀ epoch (v v' : @loop_vars W),
  loop_inv limit epoch v →
  epochs train_pass eval_pass n_train n_test fdiv remaining epoch limit v = Some v' →
  ∃ u, loop_inv limit (length (lv_test_acc v')) u ∧
       (v' = u ∨ v' = bump u) ∧
       (length (lv_test_acc v') ≤ epoch + remaining)%nat ∧
       (length (lv_test_acc v') = (epoch + remaining)%nat ∨
        limit = Some (lv_early_stop_count u)).
Proof.
  induction remaining as [|remaining IH]; intros epoch v v' Hinv Hrun.
  - simpl in Hrun. apply (inj Some) in Hrun. subst v'.
    pose proof Hinv as (L1 & _). rewrite L1.
    exists v. split_and!; [done | by left | lia | left; lia].
  - simpl in Hrun.
    destruct (stops limit (S (lv_early_stop_count v))) eqn:Hstop.
    + apply (inj Some) in Hrun. subst v'. simpl.
      pose proof Hinv as (L1 & _ & _ & _ & _ & _ & Hlim). rewrite L1.
      exists v. split_and!; [done | by right | lia|]. right.
      unfold stops in Hstop. destruct limit as [L|]; [|done].
      apply Nat.ltb_lt in Hstop. specialize (Hlim L eq_refl). f_equal. lia.
    + fold (bump v) in Hrun.
      destruct (epoch_body train_pass eval_pass n_train n_test fdiv epoch (bump v)) as [v1|] eqn:Hbody; [|done].
      simpl in Hrun.
      pose proof (epoch_step _ _ _ _ Hinv Hstop Hbody) as Hinv1.
      destruct (IH _ _ _ Hinv1 Hrun) as (u & Hu & Hv' & Hle & Hend).
      exists u. split_and!; [done | done | lia|].
      destruct Hend as [Hend|Hend]; [left; lia | by right].
Qed.

Lemma training_loop_Some num_epochs limit network r :
  training_loop train_pass eval_pass n_train n_test fdiv num_epochs limit network = Some r →
  ∃ u, loop_inv limit (length (r_test_acc r)) u ∧
       r_network r = lv_network u ∧
       r_best_net r = (if lv_best_net u then Some (lv_network u) else None) ∧
       r_best_epoch r = lv_best_epoch u ∧ r_best_acc r = lv_best_acc u ∧
       r_train_loss r = lv_train_loss u ∧ r_train_acc r = lv_train_acc u ∧
       r_test_loss r = lv_test_loss u ∧ r_test_acc r = lv_test_acc u ∧
       (length (r_test_acc r) ≤ num_epochs)%nat ∧
       (length (r_test_acc r) = num_epochs ∨
        limit = Some (lv_early_stop_count u)).
Proof.
  unfold training_loop. intros Hr.
  destruct (epochs train_pass eval_pass n_train n_test fdiv num_epochs 0 limit _) as [v'|] eqn:Hrun; [|done].
  simpl in Hr. apply (inj Some) in Hr. subst r. simpl.
  destruct (epochs_final _ _ _ _ _ (loop_inv_init limit network) Hrun)
    as (u & Hu & Hv' & Hle & Hend).
  exists u. destruct Hv' as [->| ->]; simpl in *; split_and!; done.
Qed.

End Loop.

(** X18.  When [training_loop] returns, [best_acc] is the largest validation
    accuracy of the epochs run, or 0 when none was positive; [best_epoch] is
    the first epoch that reached it, every earlier epoch being strictly
    below; and [best_epoch] stays 0 when no accuracy was positive. *)
Theorem best_is_first_maximum {W} (train_pass eval_pass : W → W * (Q * Q * Q))
    (n_train n_test : nat) (fdiv : Q → Q → Q)
    (num_epochs : nat) (limit : option nat) (network : W) r :
  training_loop train_pass eval_pass n_train n_test fdiv num_epochs limit network
    = Some r →
  (∀ j x, r_test_acc r !! j = Some x → (x <= r_best_acc r)%Q) ∧
  ((r_best_acc r = 0%Q ∧ r_best_epoch r = 0%nat) ∨
   ((0 < r_best_acc r)%Q ∧
    r_test_acc r !! r_best_epoch r = Some (r_best_acc r) ∧
    ∀ j x, (j < r_best_epoch r)%nat → r_test_acc r !! j = Some x →
           (x < r_best_acc r)%Q)).
Proof.
  intros Hr. apply training_loop_Some in Hr
    as (u & (_ & _ & _ & _ & Hle & Hbest & _) & _ & _ & -> & -> & _ & _ & _ & -> & _).
  split; [done|]. destruct (lv_best_net u); [right | left]; tauto.
Qed.


(** X20.  The four lists [training_loop] returns have one entry per epoch
    run.  Without a limit every epoch is run.  With a limit [L] the loop
    runs [L] epochs past the last improvement, [best_epoch], and [L] epochs
    in all when the accuracy never became positive, unless [num_epochs]
    ends it first. *)
Theorem epochs_run {W} (train_pass eval_pass : W → W * (Q * Q * Q))
    (n_train n_test : nat) (fdiv : Q → Q → Q)
    (num_epochs : nat) (limit : option nat) (network : W) r :
  training_loop train_pass eval_pass n_train n_test fdiv num_epochs limit network
    = Some r →
  length (r_train_loss r) = length (r_test_acc r) ∧
  length (r_train_acc r) = length (r_test_acc r) ∧
  length (r_test_loss r) = length (r_test_acc r) ∧
  length (r_test_acc r) =
    match limit with
    | None => num_epochs
    | Some L =>
        (num_epochs `min`
         (match r_best_net r with
          | Some _ => r_best_epoch r + 1
          | None => 0
          end + L))%nat
    end.
Proof.
  intros Hr. apply training_loop_Some in Hr
    as (u & (L1 & L2 & L3 & L4 & _ & Hbest & Hlim) & _ & -> & -> & _ & -> & ->
        & -> & -> & Hle & Hend).
  split_and!; try congruence.
  assert (lv_test_acc u = lv_test_acc u) as _ by done.
  destruct limit as [L|].
  - specialize (Hlim L eq_refl).
    assert (length (lv_test_acc u) =
            ((if lv_best_net u then lv_best_epoch u + 1 else 0) +
             lv_early_stop_count u)%nat) as Hsplit.
    { destruct (lv_best_net u); [destruct Hbest as (_ & _ & _ & ?) |
                                 destruct Hbest as (_ & _ & ?)]; lia. }
    destruct (lv_best_net u); simpl in *.
    + destruct Hend as [Hend|[= Hend]]; lia.
    + destruct Hend as [Hend|[= Hend]]; lia.
  - by destruct Hend.
Qed.

(** X21.  [training_loop] raises in its first epoch when a loader yields
    fewer than two batches: the sums of an epoch are divided by the index of
    the last batch.  (No epoch is attempted when [num_epochs] is 0 or the
    limit is 0.) *)
Theorem short_loader_raises {W} (train_pass eval_pass : W → W * (Q * Q * Q))
    (n_train n_test : nat) (fdiv : Q → Q → Q)
    (num_epochs : nat) (limit : option nat) (network : W) :
  (n_train < 2 ∨ n_test < 2)%nat →
  (0 < num_epochs)%nat → limit ≠ Some 0%nat →
  training_loop train_pass eval_pass n_train n_test fdiv num_epochs limit network
    = None.
Proof.
  intros Hshort Hepochs Hlimit. unfold training_loop.
  destruct num_epochs as [|remaining]; [lia|]. simpl.
  assert (stops limit 1 = false) as ->.
  { destruct limit as [[|L]|]; [done | | done]. simpl. by apply Nat.ltb_ge; lia. }
  match goal with
  | |- context [Training.epoch_body _ _ _ _ _ ?e ?v] =>
      destruct (Training.epoch_body train_pass eval_pass n_train n_test fdiv e v)
        as [v'|] eqn:Hbody
  end; [|done].
  apply epoch_body_Some in Hbody as (_ & _ & _ & _ & _ & _ & _ & _ & _ & ? & ?).
  lia.
Qed.

End TrainingFacts.

(** * Sample runs *)

Lemma forward_defined_iff_witness :
  Network.sized Samples.zero_net ∧
  (is_Some (Network.forward Samples.zero_net (replicate 3980 0%Q)) ↔
   (3980 ≤ length (replicate 3980 0%Q))%nat).
Proof.
  assert (Network.sized Samples.zero_net) as Hsized.
  { unfold Network.sized. simpl. split_and!; intros v _; reflexivity. }
  split; [exact Hsized|].
  apply (NetworkFacts.forward_defined_iff Samples.zero_net
           (replicate 3980 0%Q) Hsized).
Defined.

Lemma best_is_first_maximum_witness :
  ∃ r, Training.training_loop Samples.sample_train Samples.sample_eval 2 2 Qdiv
         10 (Some 2%nat) 0%nat = Some r ∧
       (∀ j x, Training.r_test_acc r !! j = Some x →
               (x <= Training.r_best_acc r)%Q).
Proof.
  eexists. split; [vm_compute; reflexivity|].
  apply (TrainingFacts.best_is_first_maximum Samples.sample_train
           Samples.sample_eval 2 2 Qdiv 10 (Some 2%nat) 0%nat).
  reflexivity.
Defined.


Lemma epochs_run_witness :
  ∃ r, Training.training_loop Samples.sample_train Samples.sample_eval 2 2 Qdiv
         10 (Some 2%nat) 0%nat = Some r ∧
       length (Training.r_test_acc r) =
         (10 `min` (match Training.r_best_net r with
                    | Some _ => Training.r_best_epoch r + 1
                    | None => 0
                    end + 2))%nat.
Proof.
  eexists. split; [vm_compute; reflexivity|].
  apply (TrainingFacts.epochs_run Samples.sample_train
           Samples.sample_eval 2 2 Qdiv 10 (Some 2%nat) 0%nat).
  reflexivity.
Defined.

Lemma short_loader_raises_witness :
  (1 < 2 ∨ 2 < 2)%nat ∧ (0 < 10)%nat ∧ Some 2%nat ≠ Some 0%nat ∧
  Training.training_loop Samples.sample_train Samples.sample_eval 1 2 Qdiv
    10 (Some 2%nat) 0%nat = None.
Proof.
  split; [left; lia|]. split; [lia|]. split; [discriminate|].
  apply TrainingFacts.short_loader_raises; [left; lia | lia | discriminate].
Defined.

(** The sample run: accuracies 1/2, 3/4, 3/4, 1/4 with a limit of 2 stop
    after four epochs with epoch 1 as the best. *)
Example sample_training_run :
  ∃ r, Training.training_loop Samples.sample_train Samples.sample_eval 2 2 Qdiv
         10 (Some 2%nat) 0%nat = Some r ∧
       Training.r_best_epoch r = 1%nat ∧
       length (Training.r_test_acc r) = 4%nat ∧
       Training.r_network r = 4%nat ∧
       Training.r_best_net r = Some 4%nat.
Proof. eexists. split; [vm_compute; reflexivity|]. done. Qed.

(** The sample game: the variations of the root first, then the reply. *)
Example small_game_moves :
  Pgn.gn_uci <$> default []
    (match Pgn.collect_moves true Samples.small_game with
     | Pgn.Returned moves => Some (omap id moves)
     | _ => None
     end) = ["e2e4"; "d2d4"; "e7e5"].
Proof. reflexivity. Qed.

(** * Games without side lines *)

Module PgnMainLine.
Import Pgn.

Lemma collect_linear fuel : ∀ c m k,
  linear c → (size c < fuel)%nat → (size c ≤ k)%nat →
  collect fuel true [Some c] m = Returned (m ++ (Some <$> main_line k c)).
Proof.
  induction fuel as [|fuel IH]; intros [uci vs] m k Hlin Hfuel Hk; [lia|].
  destruct k as [|k]; [simpl in Hk; lia|].
  destruct vs as [|v [|v' vs]]; [| |done].
  - simpl. destruct fuel; [simpl in Hfuel; lia|]. simpl. by rewrite !app_nil_r.
  - simpl in *. rewrite (IH v _ k); [|done|lia|lia].
    by rewrite <- (assoc_L (++)).
Qed.

Lemma main_line_level k : ∀ c i v,
  linear c → main_line k c !! i = Some v → level (S i) c = [v].
Proof.
  induction k as [|k IH]; intros [uci vs] i v Hlin Hi; [done|].
  destruct vs as [|v0 [|v' vs]]; [done| |done].
  simpl in Hi, Hlin. destruct i as [|i]; simpl in Hi.
  - apply (inj Some) in Hi. by subst v0.
  - change (level (S (S i)) (GameNode uci [v0]))
      with ([v0] ≫= level (S i)).
    rewrite bind_singleton. by apply (IH v0).
Qed.

(** X22.  On a game without side lines, with variations enabled, the moves
    collected are the main line in the order played: the move with index
    [i] is the only node [i + 1] moves below the root, so the indices that
    name the move folders alternate between the two players. *)
Theorem main_line_in_order game :
  linear game →
  collect_moves true game = Returned (Some <$> main_line (size game) game) ∧
  ∀ i v, main_line (size game) game !! i = Some v → level (S i) game = [v].
Proof.
  intros Hlin. split.
  - unfold collect_moves. rewrite (collect_linear _ game [] (size game)); [done..|lia|lia].
  - intros i v. by apply main_line_level.
Qed.

End PgnMainLine.

Lemma main_line_in_order_witness :
  Pgn.linear Samples.short_game ∧
  Pgn.collect_moves true Samples.short_game =
    Pgn.Returned (Some <$> Pgn.main_line (Pgn.size Samples.short_game)
                             Samples.short_game).
Proof.
  split; [exact I|].
  apply (PgnMainLine.main_line_in_order Samples.short_game). exact I.
Defined.
